(** * SimpleCircularDeque: a fixed-capacity ring-buffer deque

    A shallow embedding of [circular_deque<Type, capacity>] and of
    [circular_deque_iterator<Type, capacity>] from [circular_deque.h],
    followed by the properties of the container that the index arithmetic
    gives (or fails to give).

    Conventions of the embedding.
    - [std::size_t] values are [nat].  Every subtraction of the source is
      guarded ([back_index > first_index], [front_index > first_index], the
      [assert(!empty())] in front of [--count]) and every increment is
      bounded by [capacity], so no unsigned wrap-around can take place once
      the assertions hold.
    - [std::array<value_type, capacity>] is a [list] of slots read with
      [!!] and written with [<[_:=_]>].  An index outside the array is
      undefined behaviour in the source and [None] here.
    - [assert] is taken as active: an operation called outside its
      precondition returns [None].
    - A slot of the array holds a constructed object, or one whose
      destructor was invoked ([Destroyed]) and whose value can no longer be
      read; assigning to a slot makes it hold the assigned value.  The
      copying and the moving overloads of [push_back] and [push_front]
      leave the container in the same state and share one definition. *)

From Stdlib Require Import ZArith Lia.
From stdpp Require Import base numbers option list.

(** ** The element type *)

(** What the container asks of [value_type]: value-initialisation
    ([std::array<value_type, capacity> array {}]) and [operator==]
    (used by [contains]). *)
Class Element (T : Type) := {
  value_init : T;
  equal : T → T → bool
}.

(** Elements that carry an integer: value-initialisation gives 0 and
    [operator==] compares the integers. *)
#[export] Instance integer_element : Element Z :=
  {| value_init := 0%Z; equal := Z.eqb |}.

(** One element of the underlying array. *)
Inductive slot (T : Type) : Type :=
  | Object (v : T)
  | Destroyed.
Arguments Object {T} v.
Arguments Destroyed {T}.

(** [slot == value]: a slot whose object was destroyed holds no value that
    could compare equal. *)
Definition slot_equal `{Element T} (s : slot T) (value : T) : bool :=
  match s with
  | Object x => equal x value
  | Destroyed => false
  end.

(** ** The container *)

Record circular_deque (T : Type) : Type := mk_deque {
  count : nat;
  back_index : nat;
  front_index : nat;
  array : list (slot T)
}.
Arguments mk_deque {T}.
Arguments count {T}.
Arguments back_index {T}.
Arguments front_index {T}.
Arguments array {T}.

(** The iterator: the address of the owning container ([None] is
    [nullptr]) and a raw index. *)
Record circular_deque_iterator : Type := mk_iterator {
  owner : option nat;
  index : nat
}.

(** [std::reverse_iterator<iterator>], the standard adaptor that [rbegin]
    and [rend] return: it holds the adapted iterator as [current]. *)
Record reverse_iterator : Type := mk_reverse_iterator {
  current : circular_deque_iterator
}.

Section CircularDeque.

Context {T : Type} `{Element T}.

(** The template parameter [capacity_value]. *)
Variable capacity : nat.

Definition first_index : nat := 0.
Definition last_index : nat := capacity - 1.
Definition initial_back_index : nat := capacity / 2.
Definition initial_front_index : nat := capacity / 2 - 1.

(** The four static index helpers. *)
Definition previous_back_index_of (back_index : nat) : nat :=
  if first_index <? back_index then back_index - 1 else last_index.

Definition next_back_index_of (back_index : nat) : nat :=
  if back_index <? last_index then back_index + 1 else first_index.

Definition previous_front_index_of (front_index : nat) : nat :=
  if front_index <? last_index then front_index + 1 else first_index.

Definition next_front_index_of (front_index : nat) : nat :=
  if first_index <? front_index then front_index - 1 else last_index.

(** Their member overloads, applied to the container's own cursors. *)
Definition previous_back_index (d : circular_deque T) : nat :=
  previous_back_index_of (back_index d).

Definition next_back_index (d : circular_deque T) : nat :=
  next_back_index_of (back_index d).

Definition previous_front_index (d : circular_deque T) : nat :=
  previous_front_index_of (front_index d).

Definition next_front_index (d : circular_deque T) : nat :=
  next_front_index_of (front_index d).

Definition begin_index (d : circular_deque T) : nat :=
  previous_front_index d.

Definition end_index (d : circular_deque T) : nat :=
  back_index d.

(** The default constructor. *)
Definition new_deque : circular_deque T :=
  {| count := 0;
     back_index := initial_back_index;
     front_index := initial_front_index;
     array := replicate capacity (Object value_init) |}.

Definition size (d : circular_deque T) : nat := count d.

Definition max_size (d : circular_deque T) : nat := capacity.

Definition empty (d : circular_deque T) : bool := size d =? 0.

Definition full (d : circular_deque T) : bool := size d =? max_size d.

(** [array[i] = s] and [array[i].~value_type()]. *)
Definition array_set (i : nat) (s : slot T) (a : list (slot T))
  : option (list (slot T)) :=
  if i <? length a then Some (<[i:=s]> a) else None.

Definition array_destroy (i : nat) (a : list (slot T))
  : option (list (slot T)) :=
  array_set i Destroyed a.

Definition back (d : circular_deque T) : option (slot T) :=
  if empty d then None else array d !! previous_back_index d.

Definition front (d : circular_deque T) : option (slot T) :=
  if empty d then None else array d !! previous_front_index d.

Definition push_back (value : T) (d : circular_deque T)
  : option (circular_deque T) :=
  if full d then None else
  a ← array_set (back_index d) (Object value) (array d);
  Some {| array := a;
          back_index := next_back_index d;
          front_index := front_index d;
          count := S (count d) |}.

Definition push_front (value : T) (d : circular_deque T)
  : option (circular_deque T) :=
  if full d then None else
  a ← array_set (front_index d) (Object value) (array d);
  Some {| array := a;
          front_index := next_front_index d;
          back_index := back_index d;
          count := S (count d) |}.

Definition pop_back (d : circular_deque T) : option (circular_deque T) :=
  if empty d then None else
  a ← array_destroy (back_index d) (array d);
  Some {| array := a;
          back_index := previous_back_index d;
          front_index := front_index d;
          count := count d - 1 |}.

Definition pop_front (d : circular_deque T) : option (circular_deque T) :=
  if empty d then None else
  a ← array_destroy (front_index d) (array d);
  Some {| array := a;
          front_index := previous_front_index d;
          back_index := back_index d;
          count := count d - 1 |}.

(** The indices visited by [for (index = lo; index < hi; ++index)]. *)
Definition for_range (lo hi : nat) : list nat := seq lo (hi - lo).

(** A loop whose body is [array[index].~value_type()]. *)
Fixpoint destroy_each (indices : list nat) (a : list (slot T))
  : option (list (slot T)) :=
  match indices with
  | [] => Some a
  | index :: rest => a' ← array_destroy index a; destroy_each rest a'
  end.

(** [clear]: when [count > 0], one destruction pass if
    [front_index < back_index] and two otherwise, then [count = 0]; either
    way both cursors return to their initial positions. *)
Definition clear (d : circular_deque T) : option (circular_deque T) :=
  d1 ← (if 0 <? count d then
          a ← (if front_index d <? back_index d then
                 destroy_each (for_range (front_index d) (back_index d))
                   (array d)
               else
                 a1 ← destroy_each (for_range (front_index d) capacity)
                        (array d);
                 destroy_each (for_range first_index (back_index d)) a1);
          Some {| array := a;
                  count := 0;
                  back_index := back_index d;
                  front_index := front_index d |}
        else Some d);
  Some {| array := array d1;
          count := count d1;
          back_index := initial_back_index;
          front_index := initial_front_index |}.

(** A loop whose body is [if (array[sel index] == value) return true;];
    the result is [Some true] on such a return, [Some false] when the loop
    runs to its end. *)
Fixpoint search (sel : nat → nat) (value : T) (a : list (slot T))
    (indices : list nat) : option bool :=
  match indices with
  | [] => Some false
  | index :: rest =>
      s ← a !! sel index;
      if slot_equal s value then Some true else search sel value a rest
  end.

(** [contains].  Its second branch subscripts the array with [i], a name
    that the source never declares; [i] is therefore a parameter here, and
    stands for whatever index that name denotes. *)
Definition contains (i : nat) (value : T) (d : circular_deque T)
  : option bool :=
  if empty d then Some false
  else if front_index d <? back_index d then
    search (λ index, index) value (array d)
      (for_range (front_index d) (back_index d))
  else
    found ← search (λ _, i) value (array d)
               (for_range (front_index d) capacity);
    if (found : bool) then Some true
    else search (λ _, i) value (array d)
           (for_range first_index (back_index d)).

(** ** The iterator *)

Definition begin (this : nat) (d : circular_deque T)
  : circular_deque_iterator :=
  {| owner := Some this; index := begin_index d |}.

Definition end_ (this : nat) (d : circular_deque T)
  : circular_deque_iterator :=
  {| owner := Some this; index := end_index d |}.

(** [operator*], reading through [owner] the container [d] it points to. *)
Definition deref (d : circular_deque T) (it : circular_deque_iterator)
  : option (slot T) :=
  array d !! index it.

(** [operator++] and [operator--]. *)
Definition increment (it : circular_deque_iterator)
  : circular_deque_iterator :=
  {| owner := owner it; index := next_back_index_of (index it) |}.

Definition decrement (it : circular_deque_iterator)
  : circular_deque_iterator :=
  {| owner := owner it; index := previous_back_index_of (index it) |}.

(** [operator==] and [operator!=]. *)
Definition iterator_eq (a b : circular_deque_iterator) : bool :=
  (index a =? index b) && bool_decide (owner a = owner b).

Definition iterator_ne (a b : circular_deque_iterator) : bool :=
  negb (index a =? index b) || negb (bool_decide (owner a = owner b)).

(** The loop [for (it = first; it != last; ++it)] whose body reads the
    slot under [it]; the slots read are collected in order.  [None]: the fuel ran out, or the iterator left
    the array. *)
Fixpoint walk (fuel : nat) (d : circular_deque T)
    (it last : circular_deque_iterator) : option (list (slot T)) :=
  if iterator_ne it last then
    match fuel with
    | 0 => None
    | S fuel' =>
        s ← deref d it;
        rest ← walk fuel' d (increment it) last;
        Some (s :: rest)
    end
  else Some [].

(** Forward iteration from [begin()] to [end()]; a ring of [capacity]
    indices needs at most [capacity] steps. *)
Definition forward_iteration (this : nat) (d : circular_deque T)
  : option (list (slot T)) :=
  walk capacity d (begin this d) (end_ this d).

(** The default-constructed iterator: no owner, index 0. *)
Definition singular_iterator : circular_deque_iterator :=
  {| owner := None; index := 0 |}.

(** The loop [for (it = last; it != first; )] whose body is [--it] followed
    by a read of the slot under [it]: a walk towards the front with
    [operator--]. *)
Fixpoint walk_back (fuel : nat) (d : circular_deque T)
    (it first : circular_deque_iterator) : option (list (slot T)) :=
  if iterator_ne it first then
    match fuel with
    | 0 => None
    | S fuel' =>
        s ← deref d (decrement it);
        rest ← walk_back fuel' d (decrement it) first;
        Some (s :: rest)
    end
  else Some [].

(** Backward iteration from [end()] down to [begin()]. *)
Definition backward_iteration (this : nat) (d : circular_deque T)
  : option (list (slot T)) :=
  walk_back capacity d (end_ this d) (begin this d).

(** [rbegin] and [rend]: the adaptor around the iterator at
    [begin_index()], and around the one at [end_index()]. *)
Definition rbegin (this : nat) (d : circular_deque T) : reverse_iterator :=
  {| current := {| owner := Some this; index := begin_index d |} |}.

Definition rend (this : nat) (d : circular_deque T) : reverse_iterator :=
  {| current := {| owner := Some this; index := end_index d |} |}.

(** The adaptor's [operator*] reads through a decremented copy of
    [current]; its [operator++] decrements [current]; two adaptors differ
    when their [current] iterators do. *)
Definition reverse_deref (d : circular_deque T) (r : reverse_iterator)
  : option (slot T) :=
  deref d (decrement (current r)).

Definition reverse_increment (r : reverse_iterator) : reverse_iterator :=
  {| current := decrement (current r) |}.

Definition reverse_ne (a b : reverse_iterator) : bool :=
  iterator_ne (current a) (current b).

(** The loop [for (r = first; r != last; ++r)] over reverse iterators,
    reading the slot under [r]. *)
Fixpoint reverse_walk (fuel : nat) (d : circular_deque T)
    (r last : reverse_iterator) : option (list (slot T)) :=
  if reverse_ne r last then
    match fuel with
    | 0 => None
    | S fuel' =>
        s ← reverse_deref d r;
        rest ← reverse_walk fuel' d (reverse_increment r) last;
        Some (s :: rest)
    end
  else Some [].

(** Reverse iteration from [rbegin()] to [rend()]. *)
Definition reverse_iteration (this : nat) (d : circular_deque T)
  : option (list (slot T)) :=
  reverse_walk capacity d (rbegin this d) (rend this d).

(** ** Sequences of operations *)

Inductive operation : Type :=
  | PushBack (value : T)
  | PushFront (value : T)
  | PopBack
  | PopFront.

Definition perform (o : operation) (d : circular_deque T)
  : option (circular_deque T) :=
  match o with
  | PushBack value => push_back value d
  | PushFront value => push_front value d
  | PopBack => pop_back d
  | PopFront => pop_front d
  end.

(** The operations of [ops] performed in order on [d]; [None] as soon as
    one of them fails. *)
Fixpoint run (ops : list operation) (d : circular_deque T)
  : option (circular_deque T) :=
  match ops with
  | [] => Some d
  | o :: rest => d' ← perform o d; run rest d'
  end.

End CircularDeque.

Arguments operation : clear implicits.
Arguments PopBack {T}.
Arguments PopFront {T}.

(** ** Containers of integer elements used below *)

(** A container of capacity 4 after [push_back(7)]. *)
Definition one_pushed_back : circular_deque Z :=
  {| count := 1; back_index := 3; front_index := 1;
     array := [Object 0%Z; Object 0%Z; Object 7%Z; Object 0%Z] |}.

(** A container of capacity 4 after [push_front(7)]. *)
Definition one_pushed_front : circular_deque Z :=
  {| count := 1; back_index := 2; front_index := 0;
     array := [Object 0%Z; Object 7%Z; Object 0%Z; Object 0%Z] |}.

(** A container of capacity 4 after [push_back(1); push_back(2)]: the
    back cursor has wrapped to slot 0. *)
Definition two_wrapped : circular_deque Z :=
  {| count := 2; back_index := 0; front_index := 1;
     array := [Object 0%Z; Object 0%Z; Object 1%Z; Object 2%Z] |}.

(** A container of capacity 2 after [push_back(5)], and after
    [push_front(5)]. *)
Definition one_of_two_back : circular_deque Z :=
  {| count := 1; back_index := 0; front_index := 0;
     array := [Object 0%Z; Object 5%Z] |}.

Definition one_of_two_front : circular_deque Z :=
  {| count := 1; back_index := 1; front_index := 1;
     array := [Object 5%Z; Object 0%Z] |}.

(** The scenario on a container of capacity 3, and the state it
    reaches. *)
Definition scenario_ops : list (operation Z) :=
  [PushBack 1%Z; PushBack 2%Z; PushFront 0%Z].

Definition full_of_three : circular_deque Z :=
  {| count := 3; back_index := 0; front_index := 2;
     array := [Object 0%Z; Object 1%Z; Object 2%Z] |}.

(** The scenario, with [first] and [second] for what the two forward
    iterations yield. *)
Definition scenario (first second : list (slot Z)) : Prop :=
  ∃ d3 d4 d5,
    run 3 scenario_ops (new_deque 3) = Some d3 ∧
    size d3 = 3 ∧ full 3 d3 = true ∧
    front 3 d3 = Some (Object 0%Z) ∧ back 3 d3 = Some (Object 2%Z) ∧
    (∀ this, forward_iteration 3 this d3 = Some first) ∧
    pop_back 3 d3 = Some d4 ∧
    size d4 = 2 ∧ back 3 d4 = Some (Object 1%Z) ∧
    push_back 3 9%Z d4 = Some d5 ∧
    full 3 d5 = true ∧
    (∀ this, forward_iteration 3 this d5 = Some second).

(** Pushes and pops on a container of capacity 3 that take both cursors
    past [last_index] without ever filling the container. *)
Definition wrapping_ops : list (operation Z) :=
  [PushFront 1%Z; PushBack 2%Z; PopFront; PushBack 3%Z; PopFront;
   PushFront 0%Z; PopBack; PushBack 4%Z; PopFront; PushFront 5%Z;
   PopBack; PushFront 6%Z].

(** ** Ring arithmetic and the cursor invariant *)

(** Case analysis on every comparison of the index helpers. *)
Ltac cmp_cases :=
  repeat match goal with
  | |- context [?a <? ?b] => destruct (Nat.ltb_spec a b)
  | |- context [?a =? ?b] => destruct (Nat.eqb_spec a b)
  | H : context [?a <? ?b] |- _ => destruct (Nat.ltb_spec a b)
  | H : context [?a =? ?b] |- _ => destruct (Nat.eqb_spec a b)
  end.

Ltac unfold_cursors :=
  unfold begin_index, end_index, previous_back_index, next_back_index,
    previous_front_index, next_front_index, previous_back_index_of,
    next_back_index_of, previous_front_index_of, next_front_index_of,
    initial_back_index, initial_front_index, last_index, first_index,
    empty, full, size, max_size in *.

Ltac cursors := unfold_cursors; simpl in *; cmp_cases; simpl in *; try lia.

Section Properties.

Context {T : Type} `{Element T}.
Variable capacity : nat.
Hypothesis capacity_gt_1 : 1 < capacity.

Abbreviation deque := (circular_deque T).

(** ** Invariant, live window and logical contents: definitions *)

(** The cursors stay inside the array, and [back_index] is [count + 1]
    ring steps ahead of [front_index]; the three cases are the number of
    times that distance wraps past [last_index]. *)
Record wf (d : deque) : Prop := {
  wf_length : length (array d) = capacity;
  wf_count : count d ≤ capacity;
  wf_front : front_index d < capacity;
  wf_back : back_index d < capacity;
  wf_ring :
    back_index d = front_index d + 1 + count d ∨
    back_index d + capacity = front_index d + 1 + count d ∨
    back_index d + 2 * capacity = front_index d + 1 + count d
}.

(** The slots whose destructor [clear] invokes, in the order of the
    passes. *)
Definition clear_passes (d : deque) : list nat :=
  if 0 <? count d then
    if front_index d <? back_index d then
      for_range (front_index d) (back_index d)
    else
      for_range (front_index d) capacity ++
      for_range first_index (back_index d)
  else [].

Definition destroyed_at (indices : list nat) (a : list (slot T))
  : list (slot T) :=
  foldl (λ a index, <[index:=Destroyed]> a) a indices.

(** [tracked d live]: [d] is reached from the default-constructed container
    by the mutators, and [live] lists, front to back, the slots into which
    the elements that were pushed and not popped since were written. *)
Inductive tracked : deque → list nat → Prop :=
  | tracked_new : tracked (new_deque capacity) []
  | tracked_push_back v d d' live :
      tracked d live → push_back capacity v d = Some d' →
      tracked d' (live ++ [back_index d])
  | tracked_push_front v d d' live :
      tracked d live → push_front capacity v d = Some d' →
      tracked d' (front_index d :: live)
  | tracked_pop_back d d' live :
      tracked d live → pop_back capacity d = Some d' →
      tracked d' (removelast live)
  | tracked_pop_front d d' live :
      tracked d live → pop_front capacity d = Some d' →
      tracked d' (tail live)
  | tracked_clear d d' live :
      tracked d live → clear capacity d = Some d' →
      tracked d' [].

Definition reachable (d : deque) : Prop := ∃ live, tracked d live.

(** [n] successive ring positions from [i] on, stepping as [operator++]
    does. *)
Fixpoint ring_walk (n i : nat) : list nat :=
  match n with
  | 0 => []
  | S n' => i :: ring_walk n' (next_back_index_of capacity i)
  end.

(** The live window: the [count] slots from the one [front()] reads on. *)
Definition live_indices (d : deque) : list nat :=
  ring_walk (count d) (begin_index capacity d).

(** The position [n] ring steps after [i]. *)
Definition ring_pos (i n : nat) : nat :=
  if i + n <? capacity then i + n else i + n - capacity.

(** The slots of the live window, front to back. *)
Definition live_slots (d : deque) : option (list (slot T)) :=
  mapM (λ j, array d !! j) (live_indices d).

(** What an operation does to the logical sequence of elements, front to
    back. *)
Definition logical (o : operation T) (xs : list T) : list T :=
  match o with
  | PushBack v => xs ++ [v]
  | PushFront v => v :: xs
  | PopBack => removelast xs
  | PopFront => tail xs
  end.

(** The pushes of [ops] that survive its pops, in logical order. *)
Fixpoint survivors (ops : list (operation T)) (xs : list T) : list T :=
  match ops with
  | [] => xs
  | o :: rest => survivors rest (logical o xs)
  end.

Definition is_push (o : operation T) : bool :=
  match o with
  | PushBack _ | PushFront _ => true
  | PopBack | PopFront => false
  end.

(** The number of elements after [o], given [n] before it. *)
Definition after (o : operation T) (n : nat) : nat :=
  if is_push o then S n else n - 1.

(** [ops] respects the preconditions when started with [n] elements: no
    push when [n] elements fill the container, no pop when none is left. *)
Fixpoint respects (n : nat) (ops : list (operation T)) : bool :=
  match ops with
  | [] => true
  | o :: rest =>
      (if is_push o then n <? capacity else 0 <? n) && respects (after o n) rest
  end.

(** The container never becomes full in the course of [ops]. *)
Fixpoint never_full (n : nat) (ops : list (operation T)) : bool :=
  (n <? capacity) &&
  match ops with
  | [] => true
  | o :: rest => never_full (after o n) rest
  end.

Definition pushes (ops : list (operation T)) : nat :=
  length (filter (λ o, is_push o = true) ops).

Definition pops (ops : list (operation T)) : nat :=
  length (filter (λ o, is_push o = false) ops).

(** The live window of [d] holds the objects [xs], front to back. *)
Definition holds (d : deque) (xs : list T) : Prop :=
  Forall2 (λ j x, array d !! j = Some (Object x)) (live_indices d) xs.

(** The slots that hold the elements after [o]. *)
Definition track (o : operation T) (d : deque) (live : list nat) : list nat :=
  match o with
  | PushBack _ => live ++ [back_index d]
  | PushFront _ => front_index d :: live
  | PopBack => removelast live
  | PopFront => tail live
  end.

Fixpoint run_track (ops : list (operation T)) (d : deque) (live : list nat)
  : list nat :=
  match ops with
  | [] => live
  | o :: rest =>
      match perform capacity o d with
      | Some d' => run_track rest d' (track o d live)
      | None => live
      end
  end.

(** No pop of [ops] is performed on a full container, when started with
    [n] elements. *)
Fixpoint no_pop_on_full (n : nat) (ops : list (operation T)) : bool :=
  match ops with
  | [] => true
  | o :: rest =>
      (is_push o || (n <? capacity)) && no_pop_on_full (after o n) rest
  end.

(** The slots outside the live window, from the one under [back_index]
    forwards to the one under [front_index]. *)
Definition free_indices (d : deque) : list nat :=
  ring_walk (capacity - count d) (back_index d).

(** The initial placement: adjacent cursors in the middle of the array. *)
Lemma initial_placement :
  initial_back_index capacity = initial_front_index capacity + 1 ∧
  initial_back_index capacity < capacity.
Proof using capacity_gt_1.
  unfold initial_back_index, initial_front_index.
  pose proof (Nat.div_mod_eq capacity 2).
  pose proof (Nat.mod_upper_bound capacity 2). lia.
Qed.

Lemma wf_new_deque : wf (new_deque capacity).
Proof using capacity_gt_1.
  pose proof initial_placement.
  split; simpl; rewrite ?length_replicate; lia.
Qed.

(** *** What each mutator returns *)

Lemma array_set_Some i s (a : list (slot T)) :
  i < length a → array_set i s a = Some (<[i:=s]> a).
Proof. intros Hi. unfold array_set. cmp_cases; [reflexivity | lia]. Qed.

Lemma array_set_inv i s (a a' : list (slot T)) :
  array_set i s a = Some a' → i < length a ∧ a' = <[i:=s]> a.
Proof. unfold array_set. intros Hs. cmp_cases; [|discriminate]. by inversion Hs. Qed.

Lemma push_back_Some (v : T) d :
  wf d → full capacity d = false →
  push_back capacity v d =
    Some {| count := S (count d);
            back_index := next_back_index capacity d;
            front_index := front_index d;
            array := <[back_index d := Object v]> (array d) |}.
Proof.
  intros [] Hf. unfold push_back. rewrite Hf.
  rewrite array_set_Some by lia. reflexivity.
Qed.

Lemma push_front_Some (v : T) d :
  wf d → full capacity d = false →
  push_front capacity v d =
    Some {| count := S (count d);
            back_index := back_index d;
            front_index := next_front_index capacity d;
            array := <[front_index d := Object v]> (array d) |}.
Proof.
  intros [] Hf. unfold push_front. rewrite Hf.
  rewrite array_set_Some by lia. reflexivity.
Qed.

Lemma pop_back_Some (d : deque) :
  wf d → empty d = false →
  pop_back capacity d =
    Some {| count := count d - 1;
            back_index := previous_back_index capacity d;
            front_index := front_index d;
            array := <[back_index d := Destroyed]> (array d) |}.
Proof.
  intros [] He. unfold pop_back, array_destroy. rewrite He.
  rewrite array_set_Some by lia. reflexivity.
Qed.

Lemma pop_front_Some (d : deque) :
  wf d → empty d = false →
  pop_front capacity d =
    Some {| count := count d - 1;
            back_index := back_index d;
            front_index := previous_front_index capacity d;
            array := <[front_index d := Destroyed]> (array d) |}.
Proof.
  intros [] He. unfold pop_front, array_destroy. rewrite He.
  rewrite array_set_Some by lia. reflexivity.
Qed.

Lemma push_back_inv (v : T) d d' :
  push_back capacity v d = Some d' →
  full capacity d = false ∧ back_index d < length (array d) ∧
  d' = {| count := S (count d);
          back_index := next_back_index capacity d;
          front_index := front_index d;
          array := <[back_index d := Object v]> (array d) |}.
Proof.
  unfold push_back. destruct (full capacity d); [discriminate|].
  destruct (array_set _ _ _) as [a|] eqn:Ha; [|discriminate].
  apply array_set_inv in Ha as [? ->]. intros [= <-]. auto.
Qed.

Lemma push_front_inv (v : T) d d' :
  push_front capacity v d = Some d' →
  full capacity d = false ∧ front_index d < length (array d) ∧
  d' = {| count := S (count d);
          back_index := back_index d;
          front_index := next_front_index capacity d;
          array := <[front_index d := Object v]> (array d) |}.
Proof.
  unfold push_front. destruct (full capacity d); [discriminate|].
  destruct (array_set _ _ _) as [a|] eqn:Ha; [|discriminate].
  apply array_set_inv in Ha as [? ->]. intros [= <-]. auto.
Qed.

Lemma pop_back_inv (d d' : deque) :
  pop_back capacity d = Some d' →
  empty d = false ∧ back_index d < length (array d) ∧
  d' = {| count := count d - 1;
          back_index := previous_back_index capacity d;
          front_index := front_index d;
          array := <[back_index d := Destroyed]> (array d) |}.
Proof.
  unfold pop_back, array_destroy. destruct (empty d); [discriminate|].
  destruct (array_set _ _ _) as [a|] eqn:Ha; [|discriminate].
  apply array_set_inv in Ha as [? ->]. intros [= <-]. auto.
Qed.

Lemma pop_front_inv (d d' : deque) :
  pop_front capacity d = Some d' →
  empty d = false ∧ front_index d < length (array d) ∧
  d' = {| count := count d - 1;
          back_index := back_index d;
          front_index := previous_front_index capacity d;
          array := <[front_index d := Destroyed]> (array d) |}.
Proof.
  unfold pop_front, array_destroy. destruct (empty d); [discriminate|].
  destruct (array_set _ _ _) as [a|] eqn:Ha; [|discriminate].
  apply array_set_inv in Ha as [? ->]. intros [= <-]. auto.
Qed.

(** *** The invariant is kept *)

Lemma push_back_wf (v : T) d d' : wf d → push_back capacity v d = Some d' → wf d'.
Proof using capacity_gt_1.
  intros [] (Hf & _ & ->)%push_back_inv.
  split; simpl; rewrite ?length_insert; cursors.
Qed.

Lemma push_front_wf (v : T) d d' : wf d → push_front capacity v d = Some d' → wf d'.
Proof using capacity_gt_1.
  intros [] (Hf & _ & ->)%push_front_inv.
  split; simpl; rewrite ?length_insert; cursors.
Qed.

Lemma pop_back_wf (d d' : deque) : wf d → pop_back capacity d = Some d' → wf d'.
Proof using capacity_gt_1.
  intros [] (Hf & _ & ->)%pop_back_inv.
  split; simpl; rewrite ?length_insert; cursors.
Qed.

Lemma pop_front_wf (d d' : deque) : wf d → pop_front capacity d = Some d' → wf d'.
Proof using capacity_gt_1.
  intros [] (Hf & _ & ->)%pop_front_inv.
  split; simpl; rewrite ?length_insert; cursors.
Qed.

(** *** [clear] *)

Lemma length_destroyed_at indices (a : list (slot T)) :
  length (destroyed_at indices a) = length a.
Proof.
  revert a. induction indices as [|i l IH]; intros a; simpl; [done|].
  unfold destroyed_at in *. simpl. by rewrite IH, length_insert.
Qed.

Lemma lookup_destroyed_at_in indices (a : list (slot T)) j :
  j ∈ indices → j < length a → destroyed_at indices a !! j = Some Destroyed.
Proof.
  unfold destroyed_at. revert a.
  induction indices as [|i l IH] using rev_ind; intros a Hin Hj.
  - by apply elem_of_nil in Hin.
  - rewrite foldl_app. simpl. apply elem_of_app in Hin as [Hin|Hin].
    + destruct (decide (i = j)) as [->|Hne].
      * apply list_lookup_insert_eq.
        fold (destroyed_at l a). by rewrite length_destroyed_at.
      * rewrite list_lookup_insert_ne by done. by apply IH.
    + apply list_elem_of_singleton in Hin as ->.
      apply list_lookup_insert_eq.
      fold (destroyed_at l a). by rewrite length_destroyed_at.
Qed.

Lemma lookup_destroyed_at_notin indices (a : list (slot T)) j :
  j ∉ indices → destroyed_at indices a !! j = a !! j.
Proof.
  unfold destroyed_at. revert a.
  induction indices as [|i l IH]; intros a Hin; simpl; [done|].
  apply not_elem_of_cons in Hin as [Hne Hin].
  rewrite IH by done. by apply list_lookup_insert_ne.
Qed.

Lemma destroy_each_Some indices (a : list (slot T)) :
  Forall (λ i, i < length a) indices →
  destroy_each indices a = Some (destroyed_at indices a).
Proof.
  unfold destroyed_at. revert a.
  induction indices as [|i l IH]; intros a Hall; simpl; [done|].
  inversion Hall as [|?? Hi Hl]; subst.
  unfold array_destroy. rewrite array_set_Some by done. simpl.
  apply IH. rewrite list.Forall_forall in Hl. apply list.Forall_forall.
  intros k Hk. rewrite length_insert. auto.
Qed.

Lemma elem_of_for_range lo hi j : j ∈ for_range lo hi ↔ lo ≤ j < hi.
Proof. unfold for_range. rewrite elem_of_seq. lia. Qed.

Lemma clear_passes_in_range d :
  wf d → Forall (λ i, i < length (array d)) (clear_passes d).
Proof.
  intros []. apply list.Forall_forall. intros j. unfold clear_passes.
  cmp_cases; rewrite ?elem_of_app, ?elem_of_for_range, ?elem_of_nil;
    unfold first_index; lia.
Qed.

Lemma clear_Some d :
  wf d →
  clear capacity d =
    Some {| count := 0;
            back_index := initial_back_index capacity;
            front_index := initial_front_index capacity;
            array := destroyed_at (clear_passes d) (array d) |}.
Proof.
  intros Hwf. pose proof (clear_passes_in_range d Hwf) as Hall.
  unfold clear, clear_passes in *.
  destruct (Nat.ltb_spec 0 (count d)) as [Hc|Hc].
  - destruct (Nat.ltb_spec (front_index d) (back_index d)).
    + by rewrite destroy_each_Some.
    + apply Forall_app in Hall as [H1 H2].
      rewrite destroy_each_Some by done. simpl.
      rewrite destroy_each_Some.
      * simpl. unfold destroyed_at. by rewrite foldl_app.
      * by rewrite length_destroyed_at.
  - simpl. do 2 f_equal. lia.
Qed.

Lemma clear_wf d d' : wf d → clear capacity d = Some d' → wf d'.
Proof using capacity_gt_1.
  intros Hwf. rewrite clear_Some by done. intros [= <-].
  pose proof initial_placement. destruct Hwf.
  split; simpl; rewrite ?length_destroyed_at; lia.
Qed.

(** *** Reachable states *)

Lemma tracked_wf d live : tracked d live → wf d.
Proof using capacity_gt_1.
  induction 1;
    eauto using wf_new_deque, push_back_wf, push_front_wf, pop_back_wf,
      pop_front_wf, clear_wf.
Qed.

Lemma reachable_wf d : reachable d → wf d.
Proof using capacity_gt_1. intros [live Ht]. by eapply tracked_wf. Qed.

(** *** The live window *)

Lemma ring_pos_next i n :
  i < capacity → n < capacity →
  ring_pos (next_back_index_of capacity i) n = ring_pos i (S n).
Proof using capacity_gt_1. intros. unfold ring_pos. cursors. Qed.

Lemma ring_walk_snoc n i :
  i < capacity → n < capacity →
  ring_walk (S n) i = ring_walk n i ++ [ring_pos i n].
Proof using capacity_gt_1.
  revert i. induction n as [|n IH]; intros i Hi Hn.
  - simpl. unfold ring_pos. cursors. by replace (i + 0) with i by lia.
  - change (ring_walk (S (S n)) i)
      with (i :: ring_walk (S n) (next_back_index_of capacity i)).
    rewrite IH; [|cursors|lia].
    rewrite ring_pos_next by lia. reflexivity.
Qed.

Lemma elem_of_ring_walk n i j :
  i < capacity → n ≤ capacity →
  j ∈ ring_walk n i ↔
  j < capacity ∧ (i ≤ j < i + n ∨ j + capacity < i + n).
Proof using capacity_gt_1.
  revert i. induction n as [|n IH]; intros i Hi Hn; simpl.
  - rewrite elem_of_nil. lia.
  - rewrite elem_of_cons, IH; [|cursors|lia]. cursors.
Qed.

Lemma length_ring_walk n i : length (ring_walk n i) = n.
Proof. revert i. induction n; intros; simpl; auto. Qed.

Lemma length_live_indices d : length (live_indices d) = count d.
Proof. apply length_ring_walk. Qed.

(** In a valid state the position [count] steps after the first live slot
    is [back_index]. *)
Lemma ring_pos_back d :
  wf d → ring_pos (begin_index capacity d) (count d) = back_index d.
Proof using capacity_gt_1. intros []. unfold ring_pos. cursors. Qed.

(** The slots that hold an element are exactly those of the live window. *)
Lemma tracked_live d live : tracked d live → live = live_indices d.
Proof using capacity_gt_1.
  induction 1 as [|v d d' live Ht IH Hp|v d d' live Ht IH Hp
                  |d d' live Ht IH Hp|d d' live Ht IH Hp|d d' live Ht IH Hp];
    pose proof initial_placement; try (pose proof (tracked_wf _ _ Ht) as Hwf).
  - reflexivity.
  - apply push_back_inv in Hp as (Hf & _ & ->). subst live.
    unfold live_indices, begin_index, previous_front_index.
    cbn [count front_index]. destruct Hwf.
    rewrite ring_walk_snoc; [|cursors|cursors].
    f_equal. f_equal. unfold ring_pos. cursors.
  - apply push_front_inv in Hp as (Hf & _ & ->). subst live.
    unfold live_indices, begin_index, previous_front_index.
    cbn [count front_index ring_walk]. destruct Hwf. f_equal.
    + cursors.
    + f_equal. cursors.
  - apply pop_back_inv in Hp as (Hf & _ & ->). subst live.
    unfold live_indices, begin_index, previous_front_index.
    cbn [count front_index]. destruct Hwf.
    destruct (count d) as [|c] eqn:Hc; [cursors|].
    rewrite ring_walk_snoc; [|cursors|cursors].
    rewrite removelast_last. f_equal. lia.
  - apply pop_front_inv in Hp as (Hf & _ & ->). subst live.
    unfold live_indices, begin_index, previous_front_index.
    cbn [count front_index]. destruct Hwf.
    destruct (count d) as [|c] eqn:Hc; [cursors|].
    cbn [ring_walk tail]. f_equal. lia.
  - rewrite clear_Some in Hp by done. by injection Hp as <-.
Qed.

(** *** Forward iteration *)

Lemma iterator_ne_same own i : iterator_ne (mk_iterator own i) (mk_iterator own i) = false.
Proof. unfold iterator_ne. simpl. rewrite Nat.eqb_refl, bool_decide_true; done. Qed.

Lemma iterator_ne_index own i e :
  i ≠ e → iterator_ne (mk_iterator own i) (mk_iterator own e) = true.
Proof. intros Hne. unfold iterator_ne. simpl. cmp_cases; done. Qed.

(** A walk that starts [n] steps before [last], and does not meet [last]
    earlier, reads the [n] slots in between. *)
Lemma walk_ring fuel n (d : deque) own i e :
  i < capacity → n ≤ fuel → n < capacity →
  ring_pos i n = e → e ∉ ring_walk n i →
  walk capacity fuel d (mk_iterator own i) (mk_iterator own e) =
    mapM (λ j, array d !! j) (ring_walk n i).
Proof using capacity_gt_1.
  revert fuel i. induction n as [|n IH]; intros fuel i Hi Hfuel Hn Hpos Hnotin.
  - assert (e = i) as -> by (unfold ring_pos in Hpos; cursors).
    destruct fuel; simpl; by rewrite iterator_ne_same.
  - destruct fuel as [|fuel]; [lia|].
    cbn [ring_walk] in *. apply not_elem_of_cons in Hnotin as [Hne Hnotin].
    cbn [walk]. rewrite iterator_ne_index by done.
    unfold deref, increment. cbn [index owner mapM].
    rewrite <- (IH fuel (next_back_index_of capacity i));
      [reflexivity|cursors|lia|lia| |done].
    rewrite ring_pos_next by lia. done.
Qed.

(** In a valid state every slot of the live window can be read. *)
Lemma live_slots_Some (d : deque) :
  wf d → ∃ slots, live_slots d = Some slots ∧ length slots = count d.
Proof using capacity_gt_1.
  intros Hwf.
  assert (is_Some (live_slots d)) as [slots Hs].
  { apply mapM_is_Some, list.Forall_forall. intros j Hj.
    apply lookup_lt_is_Some. unfold live_indices in Hj.
    apply elem_of_ring_walk in Hj; destruct Hwf; cursors. }
  exists slots. split; [done|].
  apply length_mapM in Hs. by rewrite <- Hs, length_live_indices.
Qed.

Lemma forward_iteration_below_capacity this (d : deque) :
  wf d → count d < capacity →
  forward_iteration capacity this d = live_slots d.
Proof using capacity_gt_1.
  intros Hwf Hc. unfold forward_iteration, begin, end_, live_slots, live_indices.
  apply walk_ring; [destruct Hwf; cursors|lia|done| |].
  - by apply ring_pos_back.
  - rewrite elem_of_ring_walk; [|destruct Hwf; cursors|lia].
    unfold end_index. destruct Hwf. cursors.
Qed.

(** With [count = 0] and with [count = capacity] the two cursors are
    placed alike: [end()] sits on the slot of [begin()]. *)
Lemma begin_index_end_index (d : deque) :
  wf d → count d = 0 ∨ count d = capacity →
  begin_index capacity d = end_index d.
Proof using capacity_gt_1. intros [] Hc. cursors. Qed.

Lemma forward_iteration_nothing this (d : deque) :
  wf d → count d = 0 ∨ count d = capacity →
  forward_iteration capacity this d = Some [].
Proof using capacity_gt_1.
  intros Hwf Hc. unfold forward_iteration, begin, end_.
  rewrite (begin_index_end_index d Hwf Hc).
  destruct capacity; simpl; by rewrite iterator_ne_same.
Qed.

(** *** The logical contents *)

Lemma holds_frame (a a' : list (slot T)) (l : list nat) (xs : list T) :
  (∀ j, j ∈ l → a' !! j = a !! j) →
  Forall2 (λ j x, a !! j = Some (Object x)) l xs →
  Forall2 (λ j x, a' !! j = Some (Object x)) l xs.
Proof.
  intros Hsame Hall. induction Hall as [|j x l xs Hj Hall IH]; constructor.
  - rewrite Hsame; [done|]. apply elem_of_cons. by left.
  - apply IH. intros k Hk. apply Hsame. apply elem_of_cons. by right.
Qed.

Lemma holds_live_slots d xs : holds d xs → live_slots d = Some (Object <$> xs).
Proof.
  unfold holds, live_slots. intros Hall. apply mapM_Some.
  induction Hall; simpl; constructor; auto.
Qed.

(** One operation on a container that is not full: the operation succeeds
    when its precondition holds, and the live window follows the logical
    sequence. *)
Lemma perform_refines o d xs :
  wf d → holds d xs → count d < capacity →
  (is_push o = false → 0 < count d) →
  ∃ d', perform capacity o d = Some d' ∧ wf d' ∧ holds d' (logical o xs) ∧
        count d' = after o (count d).
Proof using capacity_gt_1.
  intros Hwf Hh Hc Hpre.
  assert (full capacity d = false) as Hnf by cursors.
  destruct o as [v|v| |]; simpl in *.
  - rewrite push_back_Some by done. eexists; split; [done|].
    split; [eapply push_back_wf; [done|by apply push_back_Some]|].
    split; [|done]. unfold holds, live_indices, begin_index, previous_front_index in *.
    cbn [count front_index array]. destruct Hwf.
    rewrite ring_walk_snoc; [|cursors|cursors].
    apply Forall2_app.
    + eapply holds_frame; [|exact Hh]. intros j Hj.
      apply list_lookup_insert_ne. intros <-.
      apply elem_of_ring_walk in Hj; cursors.
    + constructor; [|constructor].
      replace (ring_pos _ _) with (back_index d) by (unfold ring_pos; cursors).
      apply list_lookup_insert_eq. lia.
  - rewrite push_front_Some by done. eexists; split; [done|].
    split; [eapply push_front_wf; [done|by apply push_front_Some]|].
    split; [|done]. unfold holds, live_indices, begin_index, previous_front_index in *.
    cbn [count front_index array ring_walk]. destruct Hwf.
    replace (previous_front_index_of capacity (next_front_index capacity d))
      with (front_index d) by cursors.
    constructor.
    + apply list_lookup_insert_eq. lia.
    + eapply holds_frame; [|exact Hh]. intros j Hj.
      apply list_lookup_insert_ne. intros <-.
      apply elem_of_ring_walk in Hj; cursors.
  - specialize (Hpre eq_refl).
    assert (empty d = false) as Hne by cursors.
    rewrite pop_back_Some by done. eexists; split; [done|].
    split; [eapply pop_back_wf; [done|by apply pop_back_Some]|].
    split; [|done]. unfold holds, live_indices, begin_index, previous_front_index in *.
    cbn [count front_index array]. destruct Hwf.
    destruct (count d) as [|c] eqn:Hcount; [lia|].
    rewrite ring_walk_snoc in Hh; [|cursors|lia].
    apply Forall2_app_inv_l in Hh as (xs1 & xs2 & Hh1 & Hh2 & ->).
    apply Forall2_cons_inv_l in Hh2 as (x & xs3 & _ & ->%Forall2_nil_inv_l & ->).
    rewrite removelast_last. replace (S c - 1) with c by lia.
    eapply holds_frame; [|exact Hh1]. intros j Hj.
    apply list_lookup_insert_ne. intros <-.
    apply elem_of_ring_walk in Hj; cursors.
  - specialize (Hpre eq_refl).
    assert (empty d = false) as Hne by cursors.
    rewrite pop_front_Some by done. eexists; split; [done|].
    split; [eapply pop_front_wf; [done|by apply pop_front_Some]|].
    split; [|done]. unfold holds, live_indices, begin_index, previous_front_index in *.
    cbn [count front_index array]. destruct Hwf.
    destruct (count d) as [|c] eqn:Hcount; [lia|].
    cbn [ring_walk] in Hh.
    apply Forall2_cons_inv_l in Hh as (x & xs1 & _ & Hh1 & ->).
    cbn [tail]. replace (S c - 1) with c by lia.
    eapply holds_frame; [|exact Hh1]. intros j Hj.
    apply list_lookup_insert_ne. intros <-.
    apply elem_of_ring_walk in Hj; cursors.
Qed.

(** *** Whole sequences *)

(** Any operation whose precondition holds succeeds on a valid state. *)
Lemma perform_Some o d :
  wf d → (if is_push o then count d <? capacity else 0 <? count d) = true →
  ∃ d', perform capacity o d = Some d' ∧ wf d' ∧ count d' = after o (count d).
Proof using capacity_gt_1.
  intros Hwf Hpre.
  destruct o as [v|v| |]; simpl in *.
  - assert (full capacity d = false) as Hnf by cursors.
    rewrite push_back_Some by done. eexists; split; [done|].
    split; [eapply push_back_wf; [done|by apply push_back_Some]|done].
  - assert (full capacity d = false) as Hnf by cursors.
    rewrite push_front_Some by done. eexists; split; [done|].
    split; [eapply push_front_wf; [done|by apply push_front_Some]|done].
  - assert (empty d = false) as Hne by cursors.
    rewrite pop_back_Some by done. eexists; split; [done|].
    split; [eapply pop_back_wf; [done|by apply pop_back_Some]|done].
  - assert (empty d = false) as Hne by cursors.
    rewrite pop_front_Some by done. eexists; split; [done|].
    split; [eapply pop_front_wf; [done|by apply pop_front_Some]|done].
Qed.

Lemma pushes_cons o ops :
  pushes (o :: ops) = (if is_push o then 1 else 0) + pushes ops.
Proof. unfold pushes. rewrite filter_cons. by destruct o. Qed.

Lemma pops_cons o ops :
  pops (o :: ops) = (if is_push o then 0 else 1) + pops ops.
Proof. unfold pops. rewrite filter_cons. by destruct o. Qed.

(** A sequence that respects the preconditions runs to its end, and every
    push adds one to [count], every pop takes one away. *)
Lemma run_count ops d :
  wf d → respects (count d) ops = true →
  ∃ d', run capacity ops d = Some d' ∧ wf d' ∧
        count d' + pops ops = count d + pushes ops.
Proof using capacity_gt_1.
  revert d. induction ops as [|o ops IH]; intros d Hwf Hr.
  - exists d. auto.
  - cbn [respects] in Hr. apply andb_prop in Hr as [Hpre Hr].
    destruct (perform_Some o d Hwf Hpre) as (d1 & Ha & Hwf1 & Hc1).
    rewrite <- Hc1 in Hr.
    destruct (IH d1 Hwf1 Hr) as (d' & Hrun & Hwf' & Hc').
    exists d'. cbn [run]. rewrite Ha. simpl. split; [done|]. split; [done|].
    rewrite pushes_cons, pops_cons. unfold after in Hc1.
    destruct (is_push o); cursors.
Qed.

(** A sequence that also keeps the container below its capacity carries
    the logical contents along. *)
Lemma run_refines ops d xs :
  wf d → holds d xs →
  respects (count d) ops = true → never_full (count d) ops = true →
  ∃ d', run capacity ops d = Some d' ∧ wf d' ∧ count d' < capacity ∧
        holds d' (survivors ops xs).
Proof using capacity_gt_1.
  revert d xs. induction ops as [|o ops IH]; intros d xs Hwf Hh Hr Hn.
  - exists d. simpl in Hn. split; [done|]. split; [done|]. split; [|done].
    cursors.
  - cbn [respects never_full] in Hr, Hn.
    apply andb_prop in Hr as [Hpre Hr]. apply andb_prop in Hn as [Hc Hn].
    destruct (perform_refines o d xs) as (d1 & Ha & Hwf1 & Hh1 & Hc1);
      [done|done|cursors|intros Hp; rewrite Hp in Hpre; cursors|].
    rewrite <- Hc1 in Hr, Hn.
    destruct (IH d1 _ Hwf1 Hh1 Hr Hn) as (d' & Hrun & Hwf' & Hc' & Hh').
    exists d'. cbn [run survivors]. rewrite Ha. auto.
Qed.

Lemma holds_new_deque : holds (new_deque capacity) [].
Proof. constructor. Qed.

(** *** Reachability of what [run] returns *)

Lemma reachable_new_deque : reachable (new_deque capacity).
Proof. exists []. constructor. Qed.

Lemma reachable_perform o d d' :
  reachable d → perform capacity o d = Some d' → reachable d'.
Proof.
  intros [live Ht] Ha. destruct o; simpl in Ha; eexists;
    eauto using tracked_push_back, tracked_push_front, tracked_pop_back,
      tracked_pop_front.
Qed.

Lemma reachable_run ops d d' :
  reachable d → run capacity ops d = Some d' → reachable d'.
Proof.
  revert d. induction ops as [|o ops IH]; intros d Hd Hrun; simpl in Hrun.
  - by injection Hrun as <-.
  - destruct (perform capacity o d) as [d1|] eqn:Ha; [|discriminate].
    eauto using reachable_perform.
Qed.

Lemma tracked_run ops d d' live :
  tracked d live → run capacity ops d = Some d' →
  tracked d' (run_track ops d live).
Proof.
  revert d live. induction ops as [|o ops IH]; intros d live Hd Hrun;
    simpl in *.
  - by injection Hrun as <-.
  - destruct (perform capacity o d) as [d1|] eqn:Ha; [|discriminate].
    apply (IH d1); [|done].
    destruct o; simpl in *;
      eauto using tracked_push_back, tracked_push_front, tracked_pop_back,
        tracked_pop_front.
Qed.

(** *** Empty containers at every cursor position *)

Lemma ring_pos_step i n :
  i < capacity → n < capacity →
  next_back_index_of capacity (ring_pos i n) = ring_pos i (S n).
Proof using capacity_gt_1. intros. unfold ring_pos. cursors. Qed.

(** Pushing at the back and popping at the front moves an empty container
    one slot forward. *)
Lemma empty_shift d :
  reachable d → count d = 0 →
  ∃ e, reachable e ∧ count e = 0 ∧
       front_index e = next_back_index_of capacity (front_index d).
Proof using capacity_gt_1.
  intros Hd Hc. pose proof (reachable_wf d Hd) as Hwf.
  destruct (perform_Some (PushBack value_init) d Hwf) as (d1 & Ha1 & Hwf1 & Hc1);
    [cursors|].
  destruct (perform_Some PopFront d1 Hwf1) as (e & Ha2 & Hwf2 & Hc2);
    [unfold after in *; cursors|].
  exists e. split; [|split].
  - eapply reachable_perform; [|exact Ha2]. eapply reachable_perform; eauto.
  - unfold after in *. simpl in *. lia.
  - simpl in Ha1, Ha2. apply push_back_inv in Ha1 as (_ & _ & ->).
    apply pop_front_inv in Ha2 as (_ & _ & ->). reflexivity.
Qed.

Lemma empty_at_ring_pos k :
  k < capacity →
  ∃ e, reachable e ∧ count e = 0 ∧
       front_index e = ring_pos (initial_front_index capacity) k.
Proof using capacity_gt_1.
  pose proof initial_placement.
  induction k as [|k IH]; intros Hk.
  - exists (new_deque capacity). split; [apply reachable_new_deque|].
    split; [done|]. unfold ring_pos, new_deque. cbn [front_index].
    cmp_cases; lia.
  - destruct IH as (e & He & Hc & Hf); [lia|].
    destruct (empty_shift e He Hc) as (e' & He' & Hc' & Hf').
    exists e'. split; [done|]. split; [done|].
    rewrite Hf', Hf. apply ring_pos_step; lia.
Qed.

Lemma empty_anywhere f :
  f < capacity → ∃ e, reachable e ∧ count e = 0 ∧ front_index e = f.
Proof using capacity_gt_1.
  intros Hf. pose proof initial_placement.
  set (f0 := initial_front_index capacity) in *.
  destruct (empty_at_ring_pos (if f0 <=? f then f - f0 else f + capacity - f0))
    as (e & He & Hc & Hfe).
  - destruct (Nat.leb_spec f0 f); lia.
  - exists e. split; [done|]. split; [done|]. rewrite Hfe. fold f0.
    unfold ring_pos. destruct (Nat.leb_spec f0 f); cursors.
Qed.

(** *** What a pop destroys, and the push-pop round trip *)

(** [pop_back] invokes the destructor on the slot under [back_index] and
    leaves the slot that [back()] reads as it was. *)
Lemma pop_back_effect (d : deque) :
  wf d → empty d = false →
  ∃ d', pop_back capacity d = Some d' ∧
        back_index d' = previous_back_index capacity d ∧
        count d' = count d - 1 ∧
        array d' !! back_index d = Some Destroyed ∧
        array d' !! previous_back_index capacity d =
          array d !! previous_back_index capacity d.
Proof using capacity_gt_1.
  intros Hwf He. rewrite pop_back_Some by done. destruct Hwf.
  eexists; split; [done|]. cbn [back_index count array].
  split; [done|]. split; [done|]. split.
  - apply list_lookup_insert_eq. lia.
  - apply list_lookup_insert_ne. cursors.
Qed.

Lemma pop_front_effect (d : deque) :
  wf d → empty d = false →
  ∃ d', pop_front capacity d = Some d' ∧
        front_index d' = previous_front_index capacity d ∧
        count d' = count d - 1 ∧
        array d' !! front_index d = Some Destroyed ∧
        array d' !! previous_front_index capacity d =
          array d !! previous_front_index capacity d.
Proof using capacity_gt_1.
  intros Hwf He. rewrite pop_front_Some by done. destruct Hwf.
  eexists; split; [done|]. cbn [front_index count array].
  split; [done|]. split; [done|]. split.
  - apply list_lookup_insert_eq. lia.
  - apply list_lookup_insert_ne. cursors.
Qed.

(** Push at the back, read, pop: the value is read back, the pop takes one
    off the size and [back()] reads the slot it read before the push; with
    a capacity of three or more that slot is also left untouched. *)
Lemma push_pop_back (v : T) (d : deque) :
  wf d → full capacity d = false →
  ∃ d1 d2, push_back capacity v d = Some d1 ∧
           back capacity d1 = Some (Object v) ∧
           pop_back capacity d1 = Some d2 ∧
           size d2 = size d1 - 1 ∧
           previous_back_index capacity d2 = previous_back_index capacity d ∧
           (2 < capacity → empty d = false →
            back capacity d2 = back capacity d).
Proof using capacity_gt_1.
  intros Hwf Hnf. pose proof (push_back_Some v d Hwf Hnf) as Hp.
  pose proof (push_back_wf v d _ Hwf Hp) as Hwf1.
  eexists _, _. split; [exact Hp|]. split; [|split; [|split; [|split]]].
  - unfold back. cbn. destruct Hwf.
    replace (previous_back_index _ _) with (back_index d) by cursors.
    apply list_lookup_insert_eq. lia.
  - apply pop_back_Some; [done|]. cursors.
  - cbn. lia.
  - destruct Hwf. cursors.
  - intros Hcap Hne. unfold back, empty, size, previous_back_index in *.
    cbn [count back_index array]. destruct Hwf.
    replace (S (count d) - 1) with (count d) by lia. rewrite Hne.
    replace (previous_back_index_of capacity (next_back_index capacity d))
      with (back_index d) by cursors.
    rewrite !list_lookup_insert_ne; [done|cursors|cursors].
Qed.

Lemma push_pop_front (v : T) (d : deque) :
  wf d → full capacity d = false →
  ∃ d1 d2, push_front capacity v d = Some d1 ∧
           front capacity d1 = Some (Object v) ∧
           pop_front capacity d1 = Some d2 ∧
           size d2 = size d1 - 1 ∧
           previous_front_index capacity d2 = previous_front_index capacity d ∧
           (2 < capacity → empty d = false →
            front capacity d2 = front capacity d).
Proof using capacity_gt_1.
  intros Hwf Hnf. pose proof (push_front_Some v d Hwf Hnf) as Hp.
  pose proof (push_front_wf v d _ Hwf Hp) as Hwf1.
  eexists _, _. split; [exact Hp|]. split; [|split; [|split; [|split]]].
  - unfold front. cbn. destruct Hwf.
    replace (previous_front_index _ _) with (front_index d) by cursors.
    apply list_lookup_insert_eq. lia.
  - apply pop_front_Some; [done|]. cursors.
  - cbn. lia.
  - destruct Hwf. cursors.
  - intros Hcap Hne. unfold front, empty, size, previous_front_index in *.
    cbn [count front_index array]. destruct Hwf.
    replace (S (count d) - 1) with (count d) by lia. rewrite Hne.
    replace (previous_front_index_of capacity (next_front_index capacity d))
      with (front_index d) by cursors.
    rewrite !list_lookup_insert_ne; [done|cursors|cursors].
Qed.

(** *** [clear] and [contains] against the live window *)

Lemma clear_passes_empty (d : deque) : count d = 0 → clear_passes d = [].
Proof. intros Hc. unfold clear_passes. by rewrite Hc. Qed.

(** Whenever the container is neither empty nor full, [clear] destroys
    the slot under [front_index], which holds no element. *)
Lemma clear_passes_front_index (d : deque) :
  wf d → 0 < count d < capacity →
  front_index d ∈ clear_passes d ∧ front_index d ∉ live_indices d.
Proof using capacity_gt_1.
  intros Hwf Hc. split.
  - unfold clear_passes. destruct Hwf.
    cmp_cases; rewrite ?elem_of_app, ?elem_of_for_range; lia.
  - unfold live_indices. rewrite elem_of_ring_walk; destruct Hwf; cursors.
Qed.

Lemma contains_empty i (v : T) (d : deque) :
  empty d = true → contains capacity i v d = Some false.
Proof. intros He. unfold contains. by rewrite He. Qed.

(** ** The properties of the container *)

(** C3, as amended.  For every interleaving of pushes and pops that
    respects the preconditions the operations all succeed, and: while the
    container is not full, stepping an iterator from [begin()] until it
    equals [end()] reads exactly the [size()] slots of the live window,
    front to back; when the container never became full, these slots hold
    the surviving pushes in their logical order, however often the cursors
    wrapped; and when the container is full the same walk reads nothing. *)
Theorem iteration_follows_surviving_pushes this ops :
  respects 0 ops = true →
  ∃ d, run capacity ops (new_deque capacity) = Some d ∧
       (full capacity d = false →
        ∃ slots, forward_iteration capacity this d = Some slots ∧
                 live_slots d = Some slots ∧ length slots = size d) ∧
       (never_full 0 ops = true →
        live_slots d = Some (Object <$> survivors ops [])) ∧
       (full capacity d = true →
        forward_iteration capacity this d = Some []).
Proof using capacity_gt_1.
  intros Hr.
  destruct (run_count ops (new_deque capacity) wf_new_deque Hr)
    as (d & Hrun & Hwf & _).
  exists d. split; [done|]. split; [|split].
  - intros Hnf. destruct (live_slots_Some d Hwf) as (slots & Hs & Hlen).
    exists slots. split; [|done].
    rewrite forward_iteration_below_capacity; [done|done|].
    destruct Hwf. cursors.
  - intros Hn.
    destruct (run_refines ops (new_deque capacity) [] wf_new_deque
                holds_new_deque Hr Hn) as (d' & Hrun' & _ & Hc & Hh).
    rewrite Hrun in Hrun'. injection Hrun' as <-.
    by apply holds_live_slots.
  - intros Hf. apply forward_iteration_nothing; [done|]. right. cursors.
Qed.

(** C6.  For every capacity of two or more and every sequence of pushes
    and pops that respects the preconditions, the operations succeed, and
    [size()] is the number of pushes minus the number of pops; [full()]
    holds if and only if [size()] equals the capacity. *)
Theorem size_is_pushes_minus_pops ops :
  respects 0 ops = true →
  ∃ d, run capacity ops (new_deque capacity) = Some d ∧
       size d = pushes ops - pops ops ∧ pops ops ≤ pushes ops ∧
       (full capacity d = true ↔ size d = capacity).
Proof using capacity_gt_1.
  intros Hr.
  destruct (run_count ops (new_deque capacity) wf_new_deque Hr)
    as (d & Hrun & Hwf & Hc).
  exists d. simpl in Hc. split; [done|]. unfold size.
  split; [lia|]. split; [lia|]. unfold full, size, max_size.
  apply Nat.eqb_eq.
Qed.

(** C7.  In every reachable state [begin()] is at the position one ring
    step from [front_index], which is the slot [front()] reads and the
    first of the slots that hold an element; [end()] is at [back_index],
    one ring step past the last slot that holds an element; and in an
    empty container [begin() == end()]. *)
Theorem begin_and_end_positions this d live :
  tracked d live →
  index (begin capacity this d) =
    previous_front_index_of capacity (front_index d) ∧
  index (end_ this d) = back_index d ∧
  (empty d = false →
   front capacity d = deref d (begin capacity this d) ∧
   head live = Some (index (begin capacity this d)) ∧
   ∃ j, last live = Some j ∧
        next_back_index_of capacity j = index (end_ this d)) ∧
  (empty d = true →
   iterator_eq (begin capacity this d) (end_ this d) = true).
Proof using capacity_gt_1.
  intros Ht. pose proof (tracked_wf d live Ht) as Hwf.
  apply tracked_live in Ht as ->.
  split; [done|]. split; [done|]. split.
  - intros Hne. unfold front. rewrite Hne. split; [done|].
    unfold live_indices. cbn [begin index end_ end_index].
    destruct (count d) as [|c] eqn:Hc; [cursors|]. split; [done|].
    exists (ring_pos (begin_index capacity d) c).
    assert (begin_index capacity d < capacity) by (destruct Hwf; cursors).
    assert (c < capacity) by (destruct Hwf; lia).
    rewrite ring_walk_snoc, last_snoc by done. split; [done|].
    rewrite ring_pos_step by done. rewrite <- Hc. by apply ring_pos_back.
  - intros He. unfold iterator_eq. cbn [begin end_ index owner].
    rewrite bool_decide_true by done.
    rewrite (begin_index_end_index d Hwf) by (left; cursors).
    by rewrite Nat.eqb_refl.
Qed.

(** C9.  In every reachable state [back_index - front_index] and
    [count + 1] are equal modulo the capacity.  Hence in a full container
    the two cursors are where those of some reachable empty container are,
    [begin() == end()], and the walk from [begin()] to [end()] reads no
    element. *)
Theorem cursor_distance this d :
  reachable d →
  ((Z.of_nat (back_index d) - Z.of_nat (front_index d)) mod Z.of_nat capacity
   = (Z.of_nat (count d) + 1) mod Z.of_nat capacity)%Z ∧
  (full capacity d = true →
   (∃ e, reachable e ∧ empty e = true ∧
         front_index e = front_index d ∧ back_index e = back_index d) ∧
   iterator_eq (begin capacity this d) (end_ this d) = true ∧
   forward_iteration capacity this d = Some []).
Proof using capacity_gt_1.
  intros Hd. pose proof (reachable_wf d Hd) as Hwf. split.
  - destruct Hwf as [_ _ _ _ [Hr|[Hr|Hr]]].
    + f_equal. lia.
    + replace (Z.of_nat (back_index d) - Z.of_nat (front_index d))%Z
        with (Z.of_nat (count d) + 1 + (-1) * Z.of_nat capacity)%Z by lia.
      apply Z_mod_plus_full.
    + replace (Z.of_nat (back_index d) - Z.of_nat (front_index d))%Z
        with (Z.of_nat (count d) + 1 + (-2) * Z.of_nat capacity)%Z by lia.
      apply Z_mod_plus_full.
  - intros Hf. assert (count d = capacity) as Hc by cursors.
    split; [|split].
    + destruct (empty_anywhere (front_index d)) as (e & He & Hce & Hfe);
        [by destruct Hwf|].
      exists e. split; [done|]. split; [cursors|]. split; [done|].
      pose proof (begin_index_end_index e (reachable_wf e He) (or_introl Hce)).
      pose proof (begin_index_end_index d Hwf (or_intror Hc)).
      unfold begin_index, end_index, previous_front_index in *. congruence.
    + unfold iterator_eq. cbn [begin end_ index owner].
      rewrite bool_decide_true by done.
      rewrite (begin_index_end_index d Hwf) by (by right).
      by rewrite Nat.eqb_refl.
    + apply forward_iteration_nothing; [done|by right].
Qed.

(** C10.  On every reachable state that meets the precondition,
    [push_back] and [pop_back] succeed, leave [front_index] as it was and
    change no slot but the one under [back_index], which they write or
    destroy; [push_front] and [pop_front] leave [back_index] as it was and
    change no slot but the one under [front_index]. *)
Theorem mutators_frame (v : T) d :
  reachable d →
  (full capacity d = false →
   ∃ d', push_back capacity v d = Some d' ∧
         front_index d' = front_index d ∧
         array d' !! back_index d = Some (Object v) ∧
         ∀ j, j ≠ back_index d → array d' !! j = array d !! j) ∧
  (empty d = false →
   ∃ d', pop_back capacity d = Some d' ∧
         front_index d' = front_index d ∧
         array d' !! back_index d = Some Destroyed ∧
         ∀ j, j ≠ back_index d → array d' !! j = array d !! j) ∧
  (full capacity d = false →
   ∃ d', push_front capacity v d = Some d' ∧
         back_index d' = back_index d ∧
         array d' !! front_index d = Some (Object v) ∧
         ∀ j, j ≠ front_index d → array d' !! j = array d !! j) ∧
  (empty d = false →
   ∃ d', pop_front capacity d = Some d' ∧
         back_index d' = back_index d ∧
         array d' !! front_index d = Some Destroyed ∧
         ∀ j, j ≠ front_index d → array d' !! j = array d !! j).
Proof using capacity_gt_1.
  intros Hd. pose proof (reachable_wf d Hd) as Hwf.
  pose proof Hwf as [Hlen _ Hfront Hback _].
  split; [|split; [|split]]; intros Hpre.
  - rewrite push_back_Some by done. eexists; split; [done|].
    cbn [front_index array]. split; [done|].
    split; [apply list_lookup_insert_eq; lia|].
    intros j Hj. by apply list_lookup_insert_ne.
  - rewrite pop_back_Some by done. eexists; split; [done|].
    cbn [front_index array]. split; [done|].
    split; [apply list_lookup_insert_eq; lia|].
    intros j Hj. by apply list_lookup_insert_ne.
  - rewrite push_front_Some by done. eexists; split; [done|].
    cbn [back_index array]. split; [done|].
    split; [apply list_lookup_insert_eq; lia|].
    intros j Hj. by apply list_lookup_insert_ne.
  - rewrite pop_front_Some by done. eexists; split; [done|].
    cbn [back_index array]. split; [done|].
    split; [apply list_lookup_insert_eq; lia|].
    intros j Hj. by apply list_lookup_insert_ne.
Qed.

(** ** Further properties: failure, bounds and the ring *)

(** X1.  In every reachable state an operation fails exactly when its
    assertion does: the pushes when the container is full, the pops and
    the two accessors when it is empty; [clear] never fails.  No operation
    indexes outside the array. *)
Theorem failure_is_the_assertion (v : T) d :
  reachable d →
  (push_back capacity v d = None ↔ full capacity d = true) ∧
  (push_front capacity v d = None ↔ full capacity d = true) ∧
  (pop_back capacity d = None ↔ empty d = true) ∧
  (pop_front capacity d = None ↔ empty d = true) ∧
  (front capacity d = None ↔ empty d = true) ∧
  (back capacity d = None ↔ empty d = true) ∧
  is_Some (clear capacity d).
Proof using capacity_gt_1.
  intros Hd. pose proof (reachable_wf d Hd) as Hwf.
  assert (∀ j, j < capacity → array d !! j = None → False) as Hin.
  { intros j Hj Hnone. apply lookup_ge_None in Hnone. destruct Hwf. lia. }
  repeat split.
  - destruct (full capacity d) eqn:Hf; [done|].
    by rewrite push_back_Some.
  - intros Hf. unfold push_back. by rewrite Hf.
  - destruct (full capacity d) eqn:Hf; [done|].
    by rewrite push_front_Some.
  - intros Hf. unfold push_front. by rewrite Hf.
  - destruct (empty d) eqn:He; [done|]. by rewrite pop_back_Some.
  - intros He. unfold pop_back. by rewrite He.
  - destruct (empty d) eqn:He; [done|]. by rewrite pop_front_Some.
  - intros He. unfold pop_front. by rewrite He.
  - unfold front. destruct (empty d) eqn:He; [done|]. intros Hnone.
    exfalso. eapply Hin; [|exact Hnone]. destruct Hwf. cursors.
  - intros He. unfold front. by rewrite He.
  - unfold back. destruct (empty d) eqn:He; [done|]. intros Hnone.
    exfalso. eapply Hin; [|exact Hnone]. destruct Hwf. cursors.
  - intros He. unfold back. by rewrite He.
  - rewrite clear_Some by done. eauto.
Qed.

(** X2.  In every reachable state [size()] is at most [max_size()], the
    array still has [capacity] slots, both cursors point into it, and the
    container is not empty and full at once. *)
Theorem reachable_bounds d :
  reachable d →
  size d ≤ max_size capacity d ∧
  length (array d) = capacity ∧
  front_index d < capacity ∧ back_index d < capacity ∧
  ¬ (empty d = true ∧ full capacity d = true).
Proof using capacity_gt_1.
  intros Hd. destruct (reachable_wf d Hd).
  repeat split; try done. intros [He Hf]. cursors.
Qed.

(** X3.  On an index inside the array the four index helpers are the
    successor and the predecessor modulo the capacity, the front helpers
    running against the back ones. *)
Theorem index_helpers_modular i :
  i < capacity →
  next_back_index_of capacity i = (i + 1) mod capacity ∧
  previous_back_index_of capacity i = (i + capacity - 1) mod capacity ∧
  next_front_index_of capacity i = (i + capacity - 1) mod capacity ∧
  previous_front_index_of capacity i = (i + 1) mod capacity.
Proof using capacity_gt_1.
  intros Hi.
  assert ((i + 1) mod capacity = if i <? capacity - 1 then i + 1 else 0)
    as Hnext.
  { destruct (Nat.ltb_spec i (capacity - 1)).
    - apply Nat.mod_small. lia.
    - replace (i + 1) with capacity by lia. apply Nat.Div0.mod_same. }
  assert ((i + capacity - 1) mod capacity
          = if 0 <? i then i - 1 else capacity - 1) as Hprev.
  { destruct (Nat.ltb_spec 0 i).
    - replace (i + capacity - 1) with (i - 1 + 1 * capacity) by lia.
      rewrite Nat.Div0.mod_add. apply Nat.mod_small. lia.
    - replace (i + capacity - 1) with (capacity - 1) by lia.
      apply Nat.mod_small. lia. }
  rewrite Hnext, Hprev. repeat split; reflexivity.
Qed.

(** X4.  On an iterator whose index is inside the array, [operator--]
    undoes [operator++] and [operator++] undoes [operator--]. *)
Theorem increment_decrement_inverse it :
  index it < capacity →
  decrement capacity (increment capacity it) = it ∧
  increment capacity (decrement capacity it) = it.
Proof using capacity_gt_1.
  intros Hi. destruct it as [own i]. unfold increment, decrement.
  cbn [index owner] in *. split; f_equal; cursors.
Qed.

Lemma iter_increment n it :
  index it < capacity → n ≤ capacity →
  Nat.iter n (increment capacity) it =
    {| owner := owner it; index := ring_pos (index it) n |}.
Proof using capacity_gt_1.
  intros Hi. induction n as [|n IH]; intros Hn.
  - destruct it as [own i]. simpl. f_equal. unfold ring_pos. cursors.
  - change (Nat.iter (S n) (increment capacity) it)
      with (increment capacity (Nat.iter n (increment capacity) it)).
    rewrite IH by lia. unfold increment.
    cbn [index owner]. f_equal. apply ring_pos_step; lia.
Qed.

(** X5.  An iterator whose index is inside the array comes back to where
    it was after [capacity] increments, and not before. *)
Theorem increment_period it :
  index it < capacity →
  Nat.iter capacity (increment capacity) it = it ∧
  ∀ k, 0 < k < capacity → Nat.iter k (increment capacity) it ≠ it.
Proof using capacity_gt_1.
  intros Hi. split.
  - rewrite iter_increment by done. destruct it as [own i].
    cbn [index owner] in *. f_equal. unfold ring_pos. cursors.
  - intros k Hk. rewrite iter_increment by lia. destruct it as [own i].
    cbn [index owner] in *. intros [= Heq]. unfold ring_pos in Heq. cursors.
Qed.

(** X6.  [operator==] holds exactly between iterators with the same owner
    and the same index, [operator!=] is its negation, and a
    default-constructed iterator equals neither [begin()] nor [end()] of
    any container. *)
Theorem iterator_equality a b this (d : deque) :
  (iterator_eq a b = true ↔ a = b) ∧
  iterator_ne a b = negb (iterator_eq a b) ∧
  iterator_eq singular_iterator (begin capacity this d) = false ∧
  iterator_eq singular_iterator (end_ this d) = false.
Proof.
  destruct a as [oa ia], b as [ob ib]. unfold iterator_eq, iterator_ne.
  cbn [index owner begin end_ singular_iterator]. split; [|split; [|split]].
  - rewrite andb_true_iff, Nat.eqb_eq, bool_decide_eq_true.
    split; [intros [-> ->]; done|intros [= -> ->]; done].
  - by rewrite negb_andb.
  - rewrite bool_decide_false by done. apply andb_false_r.
  - rewrite bool_decide_false by done. apply andb_false_r.
Qed.

(** X7.  In every reachable state, [size()] increments take [begin()] to
    [end()]. *)
Theorem begin_to_end_in_size_steps this d :
  reachable d →
  Nat.iter (size d) (increment capacity) (begin capacity this d)
  = end_ this d.
Proof using capacity_gt_1.
  intros Hd. pose proof (reachable_wf d Hd) as Hwf.
  rewrite iter_increment; cbn [begin index owner].
  - unfold end_. f_equal. by apply ring_pos_back.
  - destruct Hwf. cursors.
  - by destruct Hwf.
Qed.

(** ** Further properties: contents and composition *)

(** A sequence that respects the preconditions and pops from no full
    container carries the logical contents along, also into a full
    container. *)
Lemma run_holds ops d xs :
  wf d → holds d xs →
  respects (count d) ops = true → no_pop_on_full (count d) ops = true →
  ∃ d', run capacity ops d = Some d' ∧ wf d' ∧ holds d' (survivors ops xs).
Proof using capacity_gt_1.
  revert d xs. induction ops as [|o ops IH]; intros d xs Hwf Hh Hr Hn.
  - exists d. auto.
  - cbn [respects no_pop_on_full] in Hr, Hn.
    apply andb_prop in Hr as [Hpre Hr]. apply andb_prop in Hn as [Hc Hn].
    destruct (perform_refines o d xs) as (d1 & Ha & Hwf1 & Hh1 & Hc1);
      [done|done| |intros Hp; rewrite Hp in Hpre; cursors|].
    { destruct (is_push o); cursors. }
    rewrite <- Hc1 in Hr, Hn.
    destruct (IH d1 _ Hwf1 Hh1 Hr Hn) as (d' & Hrun & Hwf' & Hh').
    exists d'. cbn [run survivors]. rewrite Ha. auto.
Qed.

(** When the live window holds [xs], [front()] reads its first and
    [back()] its last object. *)
Lemma holds_front_back d xs :
  wf d → holds d xs →
  length xs = count d ∧
  front capacity d = Object <$> head xs ∧
  back capacity d = Object <$> last xs.
Proof using capacity_gt_1.
  intros Hwf Hh. pose proof (Forall2_length _ _ _ Hh) as Hlen.
  rewrite length_live_indices in Hlen. split; [done|].
  unfold holds, live_indices, front, back, empty, size in *.
  destruct (count d) as [|c] eqn:Hc.
  - destruct xs; [done|discriminate].
  - cbn [Nat.eqb]. split.
    + cbn [ring_walk] in Hh.
      apply Forall2_cons_inv_l in Hh as (x & xs' & Hx & _ & ->). exact Hx.
    + rewrite ring_walk_snoc in Hh; [|destruct Hwf; cursors|destruct Hwf; lia].
      apply Forall2_app_inv_l in Hh as (xs1 & xs2 & _ & Hh2 & ->).
      apply Forall2_cons_inv_l in Hh2
        as (x & xs3 & Hx & ->%Forall2_nil_inv_l & ->).
      rewrite last_snoc. cbn [fmap option_fmap option_map].
      rewrite <- Hx. f_equal. destruct Hwf. unfold ring_pos. cursors.
Qed.

(** X8.  For every interleaving of pushes and pops that respects the
    preconditions and pops from no full container, the operations succeed,
    [size()] is the number of surviving pushes, [front()] returns the
    first and [back()] the last of them; this includes a container filled
    to its capacity. *)
Theorem accessors_follow_surviving_pushes ops :
  respects 0 ops = true → no_pop_on_full 0 ops = true →
  ∃ d, run capacity ops (new_deque capacity) = Some d ∧
       size d = length (survivors ops []) ∧
       front capacity d = Object <$> head (survivors ops []) ∧
       back capacity d = Object <$> last (survivors ops []).
Proof using capacity_gt_1.
  intros Hr Hn.
  destruct (run_holds ops (new_deque capacity) [] wf_new_deque
              holds_new_deque Hr Hn) as (d & Hrun & Hwf & Hh).
  destruct (holds_front_back d _ Hwf Hh) as (Hlen & Hf & Hb).
  exists d. unfold size. auto.
Qed.

(** X9.  With room for two more elements, [push_back(v)] followed by
    [push_front(w)] and [push_front(w)] followed by [push_back(v)] both
    succeed and leave the container in the same state. *)
Theorem pushes_at_both_ends_commute (v w : T) d :
  reachable d → count d + 2 ≤ capacity →
  ∃ d', push_back capacity v d ≫= push_front capacity w = Some d' ∧
        push_front capacity w d ≫= push_back capacity v = Some d'.
Proof using capacity_gt_1.
  intros Hd Hc. pose proof (reachable_wf d Hd) as Hwf.
  assert (full capacity d = false) as Hnf by cursors.
  pose proof (push_back_Some v d Hwf Hnf) as Hb.
  pose proof (push_front_Some w d Hwf Hnf) as Hf.
  pose proof (push_back_wf v d _ Hwf Hb) as Hwfb.
  pose proof (push_front_wf w d _ Hwf Hf) as Hwff.
  rewrite Hb, Hf. cbn [mbind option_bind].
  assert (∀ e : deque, count e = S (count d) → full capacity e = false)
    as Hroom.
  { intros e He. unfold full, size, max_size. apply Nat.eqb_neq. lia. }
  rewrite push_front_Some; [|done|by apply Hroom].
  rewrite push_back_Some; [|done|by apply Hroom].
  eexists. split; [reflexivity|]. cbn [count back_index front_index array].
  unfold next_back_index, next_front_index. cbn [back_index front_index].
  f_equal. f_equal. apply list_insert_insert_ne. destruct Hwf. lia.
Qed.

(** X10.  On a container that is not full, [push_back(v)] followed by
    [pop_back()] brings [count] and both cursors back to what they were;
    the pushed value stays in the slot under [back_index], the next slot of
    the ring is destroyed, and every other slot is as before.  The same
    holds at the front with [push_front(v)] and [pop_front()]. *)
Theorem push_then_pop_restores_cursors (v : T) d :
  reachable d → full capacity d = false →
  (∃ d1 d2, push_back capacity v d = Some d1 ∧ pop_back capacity d1 = Some d2 ∧
     count d2 = count d ∧ back_index d2 = back_index d ∧
     front_index d2 = front_index d ∧
     array d2 !! back_index d = Some (Object v) ∧
     array d2 !! next_back_index capacity d = Some Destroyed ∧
     ∀ j, j ≠ back_index d → j ≠ next_back_index capacity d →
          array d2 !! j = array d !! j) ∧
  (∃ d1 d2, push_front capacity v d = Some d1 ∧ pop_front capacity d1 = Some d2 ∧
     count d2 = count d ∧ back_index d2 = back_index d ∧
     front_index d2 = front_index d ∧
     array d2 !! front_index d = Some (Object v) ∧
     array d2 !! next_front_index capacity d = Some Destroyed ∧
     ∀ j, j ≠ front_index d → j ≠ next_front_index capacity d →
          array d2 !! j = array d !! j).
Proof using capacity_gt_1.
  intros Hd Hnf. pose proof (reachable_wf d Hd) as Hwf. split.
  - pose proof (push_back_Some v d Hwf Hnf) as Hp.
    pose proof (push_back_wf v d _ Hwf Hp) as Hwf1.
    eexists _, _. split; [exact Hp|]. split; [apply pop_back_Some; [done|cursors]|].
    cbn [count back_index front_index array]. destruct Hwf.
    split; [lia|]. split; [cursors|]. split; [done|]. split; [|split].
    + rewrite list_lookup_insert_ne by cursors.
      apply list_lookup_insert_eq. lia.
    + apply list_lookup_insert_eq. rewrite length_insert. cursors.
    + intros j Hj1 Hj2. by rewrite !list_lookup_insert_ne.
  - pose proof (push_front_Some v d Hwf Hnf) as Hp.
    pose proof (push_front_wf v d _ Hwf Hp) as Hwf1.
    eexists _, _. split; [exact Hp|]. split; [apply pop_front_Some; [done|cursors]|].
    cbn [count back_index front_index array]. destruct Hwf.
    split; [lia|]. split; [done|]. split; [cursors|]. split; [|split].
    + rewrite list_lookup_insert_ne by cursors.
      apply list_lookup_insert_eq. lia.
    + apply list_lookup_insert_eq. rewrite length_insert. cursors.
    + intros j Hj1 Hj2. by rewrite !list_lookup_insert_ne.
Qed.

(** ** Further properties: [clear] and [contains] *)

(** X11.  [clear] succeeds on every reachable state and leaves an empty
    container with the cursors at their initial positions; a second
    [clear] changes nothing. *)
Theorem clear_twice d :
  reachable d →
  ∃ d1, clear capacity d = Some d1 ∧ empty d1 = true ∧
        back_index d1 = initial_back_index capacity ∧
        front_index d1 = initial_front_index capacity ∧
        clear capacity d1 = Some d1.
Proof using capacity_gt_1.
  intros Hd. pose proof (reachable_wf d Hd) as Hwf.
  pose proof (clear_Some d Hwf) as Hc.
  pose proof (clear_wf d _ Hwf Hc) as Hwf1.
  eexists. split; [exact Hc|]. split; [done|]. split; [done|]. split; [done|].
  rewrite clear_Some by done. unfold clear_passes. reflexivity.
Qed.

(** Two valid states with the same [count] and cursors go through the
    same [count]s and cursors. *)
Lemma run_cursors ops d e d' :
  wf d → wf e →
  count e = count d → back_index e = back_index d →
  front_index e = front_index d →
  run capacity ops d = Some d' →
  ∃ e', run capacity ops e = Some e' ∧ count e' = count d' ∧
        back_index e' = back_index d' ∧ front_index e' = front_index d'.
Proof using capacity_gt_1.
  revert d e. induction ops as [|o ops IH]; intros d e Hwd Hwe Hc Hb Hf Hrun.
  - injection Hrun as <-. exists e. auto.
  - cbn [run] in *.
    destruct (perform capacity o d) as [d1|] eqn:Hd1; [|discriminate].
    cbn [mbind option_bind] in Hrun.
    assert (∃ e1, perform capacity o e = Some e1 ∧ wf d1 ∧ wf e1 ∧
                  count e1 = count d1 ∧ back_index e1 = back_index d1 ∧
                  front_index e1 = front_index d1) as (e1 & He1 & ? & ? & ? & ? & ?).
    { destruct o as [v|v| |]; cbn [perform] in *.
      - pose proof (push_back_wf v d _ Hwd Hd1).
        apply push_back_inv in Hd1 as (Hfull & _ & ->).
        assert (full capacity e = false) as Hfe
          by (unfold full, size in *; by rewrite Hc).
        pose proof (push_back_Some v e Hwe Hfe) as He.
        pose proof (push_back_wf v e _ Hwe He).
        eexists. split; [exact He|]. unfold next_back_index.
        split; [done|]. split; [done|].
        cbn [count back_index front_index]. rewrite Hc, Hb, Hf. auto.
      - pose proof (push_front_wf v d _ Hwd Hd1).
        apply push_front_inv in Hd1 as (Hfull & _ & ->).
        assert (full capacity e = false) as Hfe
          by (unfold full, size in *; by rewrite Hc).
        pose proof (push_front_Some v e Hwe Hfe) as He.
        pose proof (push_front_wf v e _ Hwe He).
        eexists. split; [exact He|]. unfold next_front_index.
        split; [done|]. split; [done|].
        cbn [count back_index front_index]. rewrite Hc, Hb, Hf. auto.
      - pose proof (pop_back_wf d _ Hwd Hd1).
        apply pop_back_inv in Hd1 as (Hemp & _ & ->).
        assert (empty e = false) as Hee
          by (unfold empty, size in *; by rewrite Hc).
        pose proof (pop_back_Some e Hwe Hee) as He.
        pose proof (pop_back_wf e _ Hwe He).
        eexists. split; [exact He|]. unfold previous_back_index.
        split; [done|]. split; [done|].
        cbn [count back_index front_index]. rewrite Hc, Hb, Hf. auto.
      - pose proof (pop_front_wf d _ Hwd Hd1).
        apply pop_front_inv in Hd1 as (Hemp & _ & ->).
        assert (empty e = false) as Hee
          by (unfold empty, size in *; by rewrite Hc).
        pose proof (pop_front_Some e Hwe Hee) as He.
        pose proof (pop_front_wf e _ Hwe He).
        eexists. split; [exact He|]. unfold previous_front_index.
        split; [done|]. split; [done|].
        cbn [count back_index front_index]. rewrite Hc, Hb, Hf. auto. }
    rewrite He1. cbn [mbind option_bind]. eapply (IH d1 e1); eauto.
Qed.

(** X12.  A cleared container behaves as a new one.  Whatever state
    [clear] was called in, a sequence of pushes and pops that respects the
    preconditions and pops from no full container then succeeds, takes
    [count] and the cursors where it takes those of a new container, and
    leaves the surviving pushes in the live window, with [front()] on the
    first and [back()] on the last of them. *)
Theorem cleared_behaves_as_new d ops :
  reachable d →
  respects 0 ops = true → no_pop_on_full 0 ops = true →
  ∃ d0 d' f,
    clear capacity d = Some d0 ∧
    run capacity ops d0 = Some d' ∧
    run capacity ops (new_deque capacity) = Some f ∧
    count d' = count f ∧ back_index d' = back_index f ∧
    front_index d' = front_index f ∧
    live_slots d' = Some (Object <$> survivors ops []) ∧
    front capacity d' = Object <$> head (survivors ops []) ∧
    back capacity d' = Object <$> last (survivors ops []).
Proof using capacity_gt_1.
  intros Hd Hr Hn. pose proof (reachable_wf d Hd) as Hwf.
  pose proof (clear_Some d Hwf) as Hc.
  pose proof (clear_wf d _ Hwf Hc) as Hwf0.
  set (d0 := {| count := 0; back_index := initial_back_index capacity;
                front_index := initial_front_index capacity;
                array := destroyed_at (clear_passes d) (array d) |}) in *.
  assert (holds d0 []) as Hh0 by constructor.
  destruct (run_holds ops d0 [] Hwf0 Hh0 Hr Hn) as (d' & Hrun & Hwf' & Hh').
  destruct (run_cursors ops d0 (new_deque capacity) d' Hwf0 wf_new_deque
              eq_refl eq_refl eq_refl Hrun) as (f & Hf & Hcf & Hbf & Hff).
  destruct (holds_front_back d' _ Hwf' Hh') as (_ & Hfront & Hback).
  exists d0, d', f. split; [done|]. split; [done|]. split; [done|].
  split; [done|]. split; [done|]. split; [done|].
  split; [by apply holds_live_slots|]. done.
Qed.

Lemma elem_of_clear_passes d j :
  wf d →
  j ∈ clear_passes d ↔
  0 < count d ∧
  (j = front_index d ∨ (count d < capacity ∧ j ∈ live_indices d)).
Proof using capacity_gt_1.
  intros Hwf. unfold live_indices.
  rewrite elem_of_ring_walk; [|destruct Hwf; cursors|by destruct Hwf].
  unfold clear_passes. destruct Hwf.
  destruct (Nat.ltb_spec 0 (count d));
    [destruct (Nat.ltb_spec (front_index d) (back_index d))|];
    rewrite ?elem_of_app, ?elem_of_for_range, ?elem_of_nil; cursors.
Qed.

(** X13.  What [clear] destroys.  On a reachable container that is not
    empty, [clear] invokes the destructor on the slot under [front_index]
    and, unless the container is full, on every slot of the live window;
    it leaves every other slot as it was.  On an empty container it
    changes no slot. *)
Theorem clear_destroys_from_front_cursor d :
  reachable d →
  ∃ d', clear capacity d = Some d' ∧
    (∀ j, 0 < count d →
          j = front_index d ∨ (count d < capacity ∧ j ∈ live_indices d) →
          array d' !! j = Some Destroyed) ∧
    (∀ j, count d = 0 ∨
          (j ≠ front_index d ∧
           (count d = capacity ∨ j ∉ live_indices d)) →
          array d' !! j = array d !! j).
Proof using capacity_gt_1.
  intros Hd. pose proof (reachable_wf d Hd) as Hwf.
  rewrite clear_Some by done. eexists. split; [done|].
  cbn [array]. split.
  - intros j Hc Hj. apply lookup_destroyed_at_in.
    + apply elem_of_clear_passes; auto.
    + destruct Hj as [->|[_ Hj]]; [destruct Hwf; lia|].
      unfold live_indices in Hj.
      apply elem_of_ring_walk in Hj; destruct Hwf; cursors.
  - intros j Hj. apply lookup_destroyed_at_notin.
    rewrite elem_of_clear_passes by done. intros [Hc Hin].
    destruct Hj as [Hz|[Hne Hj]]; [lia|].
    destruct Hin as [->|[Hlt Hin]]; [done|].
    destruct Hj as [Hfull|Hnotin]; [lia|done].
Qed.



(** ** Further properties: walking towards the front *)

Lemma ring_pos_previous i n :
  i < capacity → n < capacity →
  previous_back_index_of capacity (ring_pos i (S n)) = ring_pos i n.
Proof using capacity_gt_1. intros. unfold ring_pos. cursors. Qed.

(** A backward walk that starts [n] steps after [first] reads the [n]
    slots in between, the last one first. *)
Lemma walk_back_ring fuel n (d : deque) own i :
  i < capacity → n ≤ fuel → n < capacity →
  walk_back capacity fuel d (mk_iterator own (ring_pos i n))
    (mk_iterator own i) =
    mapM (λ j, array d !! j) (reverse (ring_walk n i)).
Proof using capacity_gt_1.
  revert fuel. induction n as [|n IH]; intros fuel Hi Hfuel Hn.
  - replace (ring_pos i 0) with i by (unfold ring_pos; cursors).
    destruct fuel; simpl; by rewrite iterator_ne_same.
  - destruct fuel as [|fuel]; [lia|].
    rewrite ring_walk_snoc, reverse_snoc by lia.
    cbn [walk_back]. rewrite iterator_ne_index by (unfold ring_pos; cursors).
    unfold deref, decrement. cbn [index owner mapM].
    rewrite ring_pos_previous by lia.
    rewrite <- (IH fuel) by lia. reflexivity.
Qed.

Lemma mapM_reverse {A B} (f : A → option B) l k :
  mapM f l = Some k → mapM f (reverse l) = Some (reverse k).
Proof. rewrite !mapM_Some. apply Forall2_reverse. Qed.

(** X15.  On a reachable container that is not full, walking from
    [end()] back to [begin()] with [operator--] reads the slots that the
    forward walk from [begin()] to [end()] reads, in the opposite
    order. *)
Theorem backward_iteration_reverses this d :
  reachable d → full capacity d = false →
  ∃ slots, forward_iteration capacity this d = Some slots ∧
           backward_iteration capacity this d = Some (reverse slots) ∧
           length slots = size d.
Proof using capacity_gt_1.
  intros Hd Hnf. pose proof (reachable_wf d Hd) as Hwf.
  assert (count d < capacity) as Hc by (destruct Hwf; cursors).
  destruct (live_slots_Some d Hwf) as (slots & Hs & Hlen).
  exists slots. split; [|split; [|done]].
  - by rewrite forward_iteration_below_capacity.
  - unfold backward_iteration, begin, end_, end_index.
    rewrite <- (ring_pos_back d Hwf).
    rewrite walk_back_ring; [|destruct Hwf; cursors|lia|done].
    by apply mapM_reverse.
Qed.

Lemma reverse_walk_walk_back fuel (d : deque) r last :
  reverse_walk capacity fuel d r last =
    walk_back capacity fuel d (current r) (current last).
Proof.
  revert r. induction fuel as [|fuel IH]; intros r; [reflexivity|].
  cbn [reverse_walk walk_back]. unfold reverse_ne, reverse_deref.
  destruct (iterator_ne (current r) (current last)); [|reflexivity].
  by rewrite IH.
Qed.

(** X16.  The walk from [rbegin()] to [rend()] visits no slot of the live
    window.  On a reachable container that is neither empty nor full it
    starts with the slot under [front_index] and reads, towards lower
    ring positions, the [capacity - size()] slots outside the live
    window; on an empty and on a full container it reads nothing. *)
Theorem reverse_iteration_reads_free_slots this d :
  reachable d →
  (0 < count d < capacity →
   ∃ slots, reverse_iteration capacity this d = Some slots ∧
            mapM (λ j, array d !! j) (reverse (free_indices d)) = Some slots ∧
            length slots = capacity - size d ∧
            reverse_deref capacity d (rbegin capacity this d)
              = array d !! front_index d ∧
            ∀ j, j ∈ free_indices d → j ∉ live_indices d) ∧
  (count d = 0 ∨ count d = capacity →
   reverse_iteration capacity this d = Some []).
Proof using capacity_gt_1.
  intros Hd. pose proof (reachable_wf d Hd) as Hwf.
  unfold reverse_iteration. rewrite reverse_walk_walk_back.
  cbn [rbegin rend current]. split.
  - intros Hc.
    assert (begin_index capacity d
            = ring_pos (back_index d) (capacity - count d)) as ->
      by (destruct Hwf; unfold ring_pos; cursors).
    unfold end_index.
    rewrite walk_back_ring; [|by destruct Hwf|lia|lia].
    fold (free_indices d).
    assert (is_Some (mapM (λ j, array d !! j) (reverse (free_indices d))))
      as [slots Hs].
    { apply mapM_is_Some, list.Forall_forall. intros j Hj.
      apply lookup_lt_is_Some. rewrite elem_of_reverse in Hj.
      unfold free_indices in Hj.
      apply elem_of_ring_walk in Hj; destruct Hwf; cursors. }
    exists slots. split; [done|]. split; [done|]. split; [|split].
    + apply length_mapM in Hs. rewrite <- Hs, length_reverse.
      unfold free_indices, size. rewrite length_ring_walk. reflexivity.
    + unfold reverse_deref, deref, decrement, rbegin. cbn [current index].
      f_equal. destruct Hwf. cursors.
    + intros j Hj Hlive. unfold free_indices, live_indices in *.
      apply elem_of_ring_walk in Hj; [|by destruct Hwf|lia].
      apply elem_of_ring_walk in Hlive; destruct Hwf; cursors.
  - intros Hc. rewrite (begin_index_end_index d Hwf Hc).
    destruct capacity; simpl; by rewrite iterator_ne_same.
Qed.

(** ** Further properties: pops and the other end *)

(** X17.  On a reachable container that is not full a pop changes no slot
    of the live window.  On a full one [pop_back] destroys the element
    that [front()] reads, and [pop_front] the element that [back()] reads:
    the accessor then returns a destroyed object. *)
Theorem pop_on_full_destroys_other_end d :
  reachable d → empty d = false →
  (full capacity d = false →
   (∃ d', pop_back capacity d = Some d' ∧
          ∀ j, j ∈ live_indices d → array d' !! j = array d !! j) ∧
   (∃ d', pop_front capacity d = Some d' ∧
          ∀ j, j ∈ live_indices d → array d' !! j = array d !! j)) ∧
  (full capacity d = true →
   (∃ d', pop_back capacity d = Some d' ∧
          front capacity d' = Some Destroyed) ∧
   (∃ d', pop_front capacity d = Some d' ∧
          back capacity d' = Some Destroyed)).
Proof using capacity_gt_1.
  intros Hd He. pose proof (reachable_wf d Hd) as Hwf.
  rewrite pop_back_Some, pop_front_Some by done. split; intros Hf.
  - split; eexists; (split; [reflexivity|]); cbn [array]; intros j Hj;
      apply list_lookup_insert_ne; intros <-; unfold live_indices in Hj;
      apply elem_of_ring_walk in Hj; destruct Hwf; cursors.
  - split; eexists; (split; [reflexivity|]).
    + unfold front, empty, size, previous_front_index.
      cbn [count front_index array]. destruct Hwf.
      replace (count d - 1 =? 0) with false by cursors.
      replace (previous_front_index_of capacity (front_index d))
        with (back_index d) by cursors.
      apply list_lookup_insert_eq. lia.
    + unfold back, empty, size, previous_back_index.
      cbn [count back_index array]. destruct Hwf.
      replace (count d - 1 =? 0) with false by cursors.
      replace (previous_back_index_of capacity (back_index d))
        with (front_index d) by cursors.
      apply list_lookup_insert_eq. lia.
Qed.

End Properties.

(** ** The container at work on integer elements *)

(** C1.  On a container of capacity four that holds the single element 7,
    [back()] reads slot 2; [pop_back] invokes the destructor on slot 3,
    the slot under [back_index], and leaves the element in slot 2 as it
    was, then moves [back_index] back to 2 and decrements [count].
    Likewise [pop_front] destroys slot 0, the slot under [front_index],
    and not slot 1, which [front()] reads. *)
Theorem pop_destroys_slot_under_cursor :
  run 4 [PushBack 7%Z] (new_deque 4) = Some one_pushed_back ∧
  previous_back_index 4 one_pushed_back = 2 ∧
  back 4 one_pushed_back = Some (Object 7%Z) ∧
  pop_back 4 one_pushed_back =
    Some {| count := 0; back_index := 2; front_index := 1;
            array := [Object 0%Z; Object 0%Z; Object 7%Z; Destroyed] |} ∧
  run 4 [PushFront 7%Z] (new_deque 4) = Some one_pushed_front ∧
  previous_front_index 4 one_pushed_front = 1 ∧
  front 4 one_pushed_front = Some (Object 7%Z) ∧
  pop_front 4 one_pushed_front =
    Some {| count := 0; back_index := 2; front_index := 1;
            array := [Destroyed; Object 7%Z; Object 0%Z; Object 0%Z] |}.
Proof. repeat split; reflexivity. Qed.

(** C2, as stated: with forward iterations that yield [0,1,2] and
    [0,1,9] the scenario does not hold. *)
Lemma scenario_as_stated_fails :
  ¬ scenario [Object 0%Z; Object 1%Z; Object 2%Z]
             [Object 0%Z; Object 1%Z; Object 9%Z].
Proof.
  intros (d3 & d4 & d5 & Hrun & _ & _ & _ & _ & Hit & _).
  vm_compute in Hrun. injection Hrun as <-.
  specialize (Hit 0). vm_compute in Hit. discriminate.
Qed.

(** C2, as amended.  With capacity three, [push_back(1); push_back(2);
    push_front(0)] gives [size() == 3], [full()], [front() == 0],
    [back() == 2], and the walk from [begin()] to [end()] reads no
    element; [pop_back()] then gives [size() == 2] and [back() == 1];
    [push_back(9)] then gives [full()], and the walk again reads no
    element. *)
Theorem scenario_full_walks_read_nothing : scenario [] [].
Proof.
  exists full_of_three.
  exists {| count := 2; back_index := 2; front_index := 2;
            array := [Destroyed; Object 1%Z; Object 2%Z] |}.
  exists {| count := 3; back_index := 0; front_index := 2;
            array := [Destroyed; Object 1%Z; Object 9%Z] |}.
  repeat split; try reflexivity;
    intros this; unfold forward_iteration, walk, iterator_ne; cbn;
    by rewrite bool_decide_true.
Qed.

(** C3, as stated: the scenario's pushes respect the preconditions, and
    the walk from [begin()] to [end()] does not yield them. *)
Lemma iteration_misses_full_container :
  ¬ (respects 3 0 scenario_ops = true →
     ∃ d, run 3 scenario_ops (new_deque 3) = Some d ∧
          forward_iteration 3 0 d = Some (Object <$> survivors scenario_ops [])).
Proof.
  intros Hclaim. destruct (Hclaim eq_refl) as (d & Hrun & Hit).
  vm_compute in Hrun. injection Hrun as <-.
  vm_compute in Hit. discriminate.
Qed.

Lemma iteration_follows_surviving_pushes_witness :
  respects 3 0 wrapping_ops = true ∧
  never_full 3 0 wrapping_ops = true ∧
  survivors wrapping_ops [] = [6%Z; 5%Z] ∧
  ∃ d, run 3 wrapping_ops (new_deque 3) = Some d ∧
       forward_iteration 3 0 d = Some [Object 6%Z; Object 5%Z].
Proof.
  split; [reflexivity|]. split; [reflexivity|]. split; [reflexivity|].
  destruct (iteration_follows_surviving_pushes 3 ltac:(lia) 0 wrapping_ops
              eq_refl) as (d & Hrun & Hwalk & Hlive & _).
  exists d. split; [exact Hrun|].
  destruct Hwalk as (slots & Hit & Hslots & _).
  - vm_compute in Hrun. injection Hrun as <-. reflexivity.
  - rewrite Hit, <- Hslots. by apply Hlive.
Defined.

(** C4.  On a container of capacity four that holds one element, in slot
    2, [clear] invokes the destructor on slot 1 as well, the free slot
    under [front_index]; on a full container of capacity three it invokes
    the destructor on slot 2 alone and leaves the elements of slots 0 and
    1 undestroyed.  In both cases [count] and the cursors are reset. *)
Theorem clear_destroys_slot_under_front_cursor :
  live_indices 4 one_pushed_back = [2] ∧
  clear 4 one_pushed_back =
    Some {| count := 0; back_index := 2; front_index := 1;
            array := [Object 0%Z; Destroyed; Destroyed; Object 0%Z] |} ∧
  run 3 scenario_ops (new_deque 3) = Some full_of_three ∧
  live_indices 3 full_of_three = [0; 1; 2] ∧
  clear 3 full_of_three =
    Some {| count := 0; back_index := 1; front_index := 0;
            array := [Object 0%Z; Object 1%Z; Destroyed] |}.
Proof. repeat split; reflexivity. Qed.

(** C5.  On a container of capacity four whose only element is 7,
    [contains(0)] returns true: the search starts at the free slot under
    [front_index], which still holds the value-initialised 0.  On a
    container whose live window wraps and holds 1 and 2, whatever index
    the undeclared [i] stands for, [contains] does not find both. *)
Theorem contains_reads_slot_under_front_cursor :
  live_slots 4 one_pushed_back = Some [Object 7%Z] ∧
  (∀ i, contains 4 i 0%Z one_pushed_back = Some true) ∧
  run 4 [PushBack 1%Z; PushBack 2%Z] (new_deque 4) = Some two_wrapped ∧
  live_slots 4 two_wrapped = Some [Object 1%Z; Object 2%Z] ∧
  (∀ i, ¬ (contains 4 i 1%Z two_wrapped = Some true ∧
           contains 4 i 2%Z two_wrapped = Some true)).
Proof.
  split; [reflexivity|]. split; [intros i; reflexivity|].
  split; [reflexivity|]. split; [reflexivity|].
  intros i [H1 H2].
  destruct i as [|[|[|[|i]]]]; vm_compute in H1, H2; discriminate.
Qed.

Lemma size_is_pushes_minus_pops_witness :
  respects 2 0 [PushBack 1%Z; PushFront 2%Z; PopBack; PopFront; PushFront 3%Z]
    = true ∧
  ∃ d, run 2 [PushBack 1%Z; PushFront 2%Z; PopBack; PopFront; PushFront 3%Z]
         (new_deque 2) = Some d ∧
       size d =
         pushes [PushBack 1%Z; PushFront 2%Z; PopBack; PopFront; PushFront 3%Z]
         - pops [PushBack 1%Z; PushFront 2%Z; PopBack; PopFront; PushFront 3%Z] ∧
       pops [PushBack 1%Z; PushFront 2%Z; PopBack; PopFront; PushFront 3%Z]
       ≤ pushes [PushBack 1%Z; PushFront 2%Z; PopBack; PopFront; PushFront 3%Z] ∧
       (full 2 d = true ↔ size d = 2).
Proof.
  split; [reflexivity|].
  apply (size_is_pushes_minus_pops 2 ltac:(lia)). reflexivity.
Defined.

Lemma begin_and_end_positions_witness :
  tracked 4 one_pushed_back [2] ∧
  index (begin 4 0 one_pushed_back) = 2 ∧
  index (end_ 0 one_pushed_back) = 3 ∧
  front 4 one_pushed_back = deref one_pushed_back (begin 4 0 one_pushed_back) ∧
  head [2] = Some (index (begin 4 0 one_pushed_back)) ∧
  (∃ j, last [2] = Some j ∧
        next_back_index_of 4 j = index (end_ 0 one_pushed_back)) ∧
  iterator_eq (begin 4 0 (new_deque (T:=Z) 4)) (end_ 0 (new_deque (T:=Z) 4))
    = true.
Proof.
  assert (tracked 4 one_pushed_back [2]) as Ht.
  { apply (tracked_push_back 4 7%Z (new_deque 4) one_pushed_back []).
    - apply tracked_new.
    - reflexivity. }
  split; [exact Ht|].
  destruct (begin_and_end_positions 4 ltac:(lia) 0 one_pushed_back [2] Ht)
    as (Hb & He & Hlive & _).
  destruct (Hlive eq_refl) as (Hf & Hh & Hl).
  split; [exact Hb|]. split; [exact He|]. split; [exact Hf|].
  split; [exact Hh|]. split; [exact Hl|].
  apply (begin_and_end_positions 4 ltac:(lia) 0 (new_deque 4) []).
  - apply tracked_new.
  - reflexivity.
Defined.

(** C8.  With capacity two and the single element 5, [push_back(6)] is
    read back by [back()], and [pop_back()] takes one off [size()]; but
    the pop invokes the destructor on slot 1, which holds 5, so that
    [back()] then reads a destroyed object where 5 was.  The same happens
    at the front. *)
Theorem pop_after_push_destroys_neighbour :
  run 2 [PushBack 5%Z] (new_deque 2) = Some one_of_two_back ∧
  full 2 one_of_two_back = false ∧
  back 2 one_of_two_back = Some (Object 5%Z) ∧
  (∃ d1 d2, push_back 2 6%Z one_of_two_back = Some d1 ∧
            back 2 d1 = Some (Object 6%Z) ∧
            pop_back 2 d1 = Some d2 ∧
            size d2 = size d1 - 1 ∧
            back 2 d2 = Some Destroyed) ∧
  run 2 [PushFront 5%Z] (new_deque 2) = Some one_of_two_front ∧
  full 2 one_of_two_front = false ∧
  front 2 one_of_two_front = Some (Object 5%Z) ∧
  (∃ d1 d2, push_front 2 6%Z one_of_two_front = Some d1 ∧
            front 2 d1 = Some (Object 6%Z) ∧
            pop_front 2 d1 = Some d2 ∧
            size d2 = size d1 - 1 ∧
            front 2 d2 = Some Destroyed).
Proof.
  repeat split; try reflexivity.
  - exists {| count := 2; back_index := 1; front_index := 0;
              array := [Object 6%Z; Object 5%Z] |}.
    exists {| count := 1; back_index := 0; front_index := 0;
              array := [Object 6%Z; Destroyed] |}.
    repeat split; reflexivity.
  - exists {| count := 2; back_index := 1; front_index := 0;
              array := [Object 5%Z; Object 6%Z] |}.
    exists {| count := 1; back_index := 1; front_index := 1;
              array := [Destroyed; Object 6%Z] |}.
    repeat split; reflexivity.
Qed.

Lemma cursor_distance_witness :
  reachable 3 full_of_three ∧ full 3 full_of_three = true ∧
  ((0 - 2) mod 3 = (3 + 1) mod 3)%Z ∧
  (∃ e, reachable 3 e ∧ empty e = true ∧
        front_index e = 2 ∧ back_index e = 0) ∧
  iterator_eq (begin 3 0 full_of_three) (end_ 0 full_of_three) = true ∧
  forward_iteration 3 0 full_of_three = Some [].
Proof.
  assert (reachable 3 full_of_three) as Hd.
  { apply (reachable_run 3 scenario_ops (new_deque 3)).
    - apply reachable_new_deque.
    - reflexivity. }
  split; [exact Hd|]. split; [reflexivity|].
  destruct (cursor_distance 3 ltac:(lia) 0 full_of_three Hd) as [Hmod Hfull].
  split; [exact Hmod|]. exact (Hfull eq_refl).
Defined.

Lemma mutators_frame_witness :
  reachable 4 one_pushed_back ∧
  full 4 one_pushed_back = false ∧ empty one_pushed_back = false ∧
  (∃ d', push_back 4 9%Z one_pushed_back = Some d' ∧
         front_index d' = 1 ∧
         array d' !! 3 = Some (Object 9%Z) ∧
         ∀ j, j ≠ 3 → array d' !! j = array one_pushed_back !! j) ∧
  (∃ d', pop_back 4 one_pushed_back = Some d' ∧
         front_index d' = 1 ∧
         array d' !! 3 = Some Destroyed ∧
         ∀ j, j ≠ 3 → array d' !! j = array one_pushed_back !! j) ∧
  (∃ d', push_front 4 9%Z one_pushed_back = Some d' ∧
         back_index d' = 3 ∧
         array d' !! 1 = Some (Object 9%Z) ∧
         ∀ j, j ≠ 1 → array d' !! j = array one_pushed_back !! j) ∧
  (∃ d', pop_front 4 one_pushed_back = Some d' ∧
         back_index d' = 3 ∧
         array d' !! 1 = Some Destroyed ∧
         ∀ j, j ≠ 1 → array d' !! j = array one_pushed_back !! j).
Proof.
  assert (reachable 4 one_pushed_back) as Hd.
  { apply (reachable_run 4 [PushBack 7%Z] (new_deque 4)).
    - apply reachable_new_deque.
    - reflexivity. }
  split; [exact Hd|]. split; [reflexivity|]. split; [reflexivity|].
  destruct (mutators_frame 4 ltac:(lia) 9%Z one_pushed_back Hd)
    as (Hpb & Hqb & Hpf & Hqf).
  split; [exact (Hpb eq_refl)|]. split; [exact (Hqb eq_refl)|].
  split; [exact (Hpf eq_refl)|]. exact (Hqf eq_refl).
Defined.

(** ** The further properties at work *)

Lemma reachable_one_pushed_back : reachable 4 one_pushed_back.
Proof.
  apply (reachable_run 4 [PushBack 7%Z] (new_deque 4));
    [apply reachable_new_deque|reflexivity].
Qed.

Lemma reachable_two_wrapped : reachable 4 two_wrapped.
Proof.
  apply (reachable_run 4 [PushBack 1%Z; PushBack 2%Z] (new_deque 4));
    [apply reachable_new_deque|reflexivity].
Qed.

Lemma reachable_full_of_three : reachable 3 full_of_three.
Proof.
  apply (reachable_run 3 scenario_ops (new_deque 3));
    [apply reachable_new_deque|reflexivity].
Qed.

Lemma failure_is_the_assertion_witness :
  push_back 3 9%Z full_of_three = None ∧
  push_front 3 9%Z full_of_three = None ∧
  pop_back 3 (new_deque (T:=Z) 3) = None ∧
  front 3 (new_deque (T:=Z) 3) = None ∧
  is_Some (clear 3 full_of_three).
Proof.
  destruct (failure_is_the_assertion 3 ltac:(lia) 9%Z full_of_three
              reachable_full_of_three) as (Hpb & Hpf & _ & _ & _ & _ & Hc).
  destruct (failure_is_the_assertion 3 ltac:(lia) 9%Z (new_deque 3)
              (reachable_new_deque 3)) as (_ & _ & Hqb & _ & Hf & _).
  split; [by apply Hpb|]. split; [by apply Hpf|].
  split; [by apply Hqb|]. split; [by apply Hf|]. exact Hc.
Defined.

Lemma reachable_bounds_witness :
  size full_of_three ≤ 3 ∧ length (array full_of_three) = 3 ∧
  front_index full_of_three < 3 ∧ back_index full_of_three < 3 ∧
  ¬ (empty full_of_three = true ∧ full 3 full_of_three = true).
Proof.
  exact (reachable_bounds 3 ltac:(lia) full_of_three reachable_full_of_three).
Defined.

Lemma index_helpers_modular_witness :
  next_back_index_of 4 3 = 0 ∧ previous_back_index_of 4 0 = 3 ∧
  next_front_index_of 4 0 = 3 ∧ previous_front_index_of 4 3 = 0.
Proof.
  destruct (index_helpers_modular 4 ltac:(lia) 3 ltac:(lia))
    as (Hnb & _ & _ & Hpf).
  destruct (index_helpers_modular 4 ltac:(lia) 0 ltac:(lia))
    as (_ & Hpb & Hnf & _).
  split; [exact Hnb|]. split; [exact Hpb|]. split; [exact Hnf|exact Hpf].
Defined.

Lemma increment_decrement_inverse_witness :
  decrement 4 (increment 4 {| owner := Some 0; index := 3 |})
    = {| owner := Some 0; index := 3 |} ∧
  increment 4 (decrement 4 {| owner := Some 0; index := 0 |})
    = {| owner := Some 0; index := 0 |}.
Proof.
  split.
  - apply (increment_decrement_inverse 4 ltac:(lia)
             {| owner := Some 0; index := 3 |}). simpl. lia.
  - apply (increment_decrement_inverse 4 ltac:(lia)
             {| owner := Some 0; index := 0 |}). simpl. lia.
Defined.

Lemma increment_period_witness :
  Nat.iter 4 (increment 4) {| owner := Some 0; index := 2 |}
    = {| owner := Some 0; index := 2 |} ∧
  Nat.iter 3 (increment 4) {| owner := Some 0; index := 2 |}
    ≠ {| owner := Some 0; index := 2 |}.
Proof.
  destruct (increment_period 4 ltac:(lia) {| owner := Some 0; index := 2 |})
    as [Hfull Hless]; [simpl; lia|].
  split; [exact Hfull|]. apply Hless. lia.
Defined.

Lemma begin_to_end_in_size_steps_witness :
  Nat.iter 3 (increment 3) (begin 3 0 full_of_three) = end_ 0 full_of_three ∧
  Nat.iter 2 (increment 4) (begin 4 0 two_wrapped) = end_ 0 two_wrapped.
Proof.
  split.
  - exact (begin_to_end_in_size_steps 3 ltac:(lia) 0 full_of_three
             reachable_full_of_three).
  - exact (begin_to_end_in_size_steps 4 ltac:(lia) 0 two_wrapped
             reachable_two_wrapped).
Defined.

Lemma accessors_follow_surviving_pushes_witness :
  (∃ d, run 3 scenario_ops (new_deque 3) = Some d ∧ size d = 3 ∧
        front 3 d = Some (Object 0%Z) ∧ back 3 d = Some (Object 2%Z)) ∧
  (∃ d, run 3 wrapping_ops (new_deque 3) = Some d ∧ size d = 2 ∧
        front 3 d = Some (Object 6%Z) ∧ back 3 d = Some (Object 5%Z)).
Proof.
  split.
  - exact (accessors_follow_surviving_pushes 3 ltac:(lia) scenario_ops
             eq_refl eq_refl).
  - exact (accessors_follow_surviving_pushes 3 ltac:(lia) wrapping_ops
             eq_refl eq_refl).
Defined.

Lemma pushes_at_both_ends_commute_witness :
  ∃ d', push_back 4 8%Z one_pushed_back ≫= push_front 4 6%Z = Some d' ∧
        push_front 4 6%Z one_pushed_back ≫= push_back 4 8%Z = Some d'.
Proof.
  apply (pushes_at_both_ends_commute 4 ltac:(lia) 8%Z 6%Z one_pushed_back
           reachable_one_pushed_back). simpl. lia.
Defined.

Lemma push_then_pop_restores_cursors_witness :
  ∃ d1 d2, push_back 4 9%Z one_pushed_back = Some d1 ∧
           pop_back 4 d1 = Some d2 ∧
           count d2 = 1 ∧ back_index d2 = 3 ∧ front_index d2 = 1 ∧
           array d2 !! 3 = Some (Object 9%Z) ∧
           array d2 !! 0 = Some Destroyed ∧
           ∀ j, j ≠ 3 → j ≠ 0 → array d2 !! j = array one_pushed_back !! j.
Proof.
  destruct (push_then_pop_restores_cursors 4 ltac:(lia) 9%Z one_pushed_back
              reachable_one_pushed_back eq_refl) as [Hback _].
  exact Hback.
Defined.

Lemma clear_twice_witness :
  ∃ d1, clear 3 full_of_three = Some d1 ∧ empty d1 = true ∧
        back_index d1 = 1 ∧ front_index d1 = 0 ∧ clear 3 d1 = Some d1.
Proof.
  exact (clear_twice 3 ltac:(lia) full_of_three reachable_full_of_three).
Defined.

Lemma cleared_behaves_as_new_witness :
  ∃ d0 d' f,
    clear 3 full_of_three = Some d0 ∧
    run 3 wrapping_ops d0 = Some d' ∧
    run 3 wrapping_ops (new_deque 3) = Some f ∧
    count d' = count f ∧ back_index d' = back_index f ∧
    front_index d' = front_index f ∧
    live_slots 3 d' = Some [Object 6%Z; Object 5%Z] ∧
    front 3 d' = Some (Object 6%Z) ∧ back 3 d' = Some (Object 5%Z).
Proof.
  exact (cleared_behaves_as_new 3 ltac:(lia) full_of_three wrapping_ops
           reachable_full_of_three eq_refl eq_refl).
Defined.

Lemma clear_destroys_from_front_cursor_witness :
  ∃ d', clear 4 one_pushed_back = Some d' ∧
        array d' !! 1 = Some Destroyed ∧ array d' !! 2 = Some Destroyed ∧
        array d' !! 0 = Some (Object 0%Z) ∧ array d' !! 3 = Some (Object 0%Z).
Proof.
  destruct (clear_destroys_from_front_cursor 4 ltac:(lia) one_pushed_back
              reachable_one_pushed_back) as (d' & Hc & Hin & Hout).
  exists d'. split; [exact Hc|]. split; [|split; [|split]].
  - apply Hin; [simpl; lia|]. by left.
  - apply Hin; [simpl; lia|]. right. split; [simpl; lia|].
    apply list_elem_of_singleton. reflexivity.
  - rewrite Hout; [reflexivity|]. right. split; [simpl; lia|]. right.
    intros Hj. apply list_elem_of_singleton in Hj. discriminate.
  - rewrite Hout; [reflexivity|]. right. split; [simpl; lia|]. right.
    intros Hj. apply list_elem_of_singleton in Hj. discriminate.
Defined.


Lemma backward_iteration_reverses_witness :
  ∃ slots, forward_iteration 4 0 two_wrapped = Some slots ∧
           backward_iteration 4 0 two_wrapped = Some (reverse slots) ∧
           length slots = 2.
Proof.
  exact (backward_iteration_reverses 4 ltac:(lia) 0 two_wrapped
           reachable_two_wrapped eq_refl).
Defined.

Lemma reverse_iteration_reads_free_slots_witness :
  (∃ slots, reverse_iteration 4 0 one_pushed_back = Some slots ∧
            mapM (λ j, array one_pushed_back !! j) [1; 0; 3] = Some slots ∧
            length slots = 3 ∧
            reverse_deref 4 one_pushed_back (rbegin 4 0 one_pushed_back)
              = array one_pushed_back !! 1 ∧
            ∀ j, j ∈ free_indices 4 one_pushed_back →
                 j ∉ live_indices 4 one_pushed_back) ∧
  reverse_iteration 3 0 full_of_three = Some [].
Proof.
  split.
  - apply (reverse_iteration_reads_free_slots 4 ltac:(lia) 0 one_pushed_back
             reachable_one_pushed_back). simpl. lia.
  - apply (reverse_iteration_reads_free_slots 3 ltac:(lia) 0 full_of_three
             reachable_full_of_three). by right.
Defined.

Lemma pop_on_full_destroys_other_end_witness :
  (∃ d', pop_back 3 full_of_three = Some d' ∧ front 3 d' = Some Destroyed) ∧
  (∃ d', pop_front 3 full_of_three = Some d' ∧ back 3 d' = Some Destroyed) ∧
  (∃ d', pop_back 4 two_wrapped = Some d' ∧
         ∀ j, j ∈ live_indices 4 two_wrapped →
              array d' !! j = array two_wrapped !! j).
Proof.
  destruct (pop_on_full_destroys_other_end 3 ltac:(lia) full_of_three
              reachable_full_of_three eq_refl) as [_ Hfull].
  destruct (Hfull eq_refl) as [Hb Hf].
  destruct (pop_on_full_destroys_other_end 4 ltac:(lia) two_wrapped
              reachable_two_wrapped eq_refl) as [Hroom _].
  destruct (Hroom eq_refl) as [Hb' _].
  split; [exact Hb|]. split; [exact Hf|exact Hb'].
Defined.
